(** * A shallow embedding of [src/isomorphicGit.ts]

    The class [IsomorphicGit] wraps the isomorphic-git library: it classifies
    the rows of the status matrix through a fixed table ([status],
    [getFileStatusResult]), compares two commits by a lock-step walk over
    their trees ([diff], [getChangedFiles]) and builds [commitAll] and
    [getCurrentCommit] on top of them.

    The specification calls these [computeStatus], [diffTrees],
    [countChangedFiles] and [currentCommit].

    Pure code is embedded as functions.  Code that awaits the library runs in
    a state-and-exception monad over a world made of the repository, the
    plugin object and the console; the library itself is an interface
    ([Git]) of which the methods are clients. *)

From Stdlib Require Import String Ascii DecimalString DecimalNat ZArith.
From stdpp Require Import base option list strings gmap.
From Equations Require Import Equations.

Set Warnings "-register-all".
Local Open Scope string_scope.
Local Open Scope list_scope.

(** ** JavaScript values shared by all methods *)

(** An exception as the code inspects it: [error.code] and
    [error.data.what].  Exceptions that are not raised by the library (a
    [TypeError], say) carry neither. *)
Record Exception : Set := {
  code : option string;
  data_what : option string
}.

(** The result of awaiting a promise. *)
Inductive Outcome (A : Type) : Type :=
| Returns (a : A)
| Throws (error : Exception).
Arguments Returns {A} a.
Arguments Throws {A} error.

Definition outcome_map {A B : Type} (f : A → B) (r : Outcome A) : Outcome B :=
  match r with
  | Returns a => Returns (f a)
  | Throws error => Throws error
  end.

(** Reading a property of [undefined]. *)
Definition TypeError : Exception := {| code := None; data_what := None |}.

(** A number inside a template literal, [`${n}`]. *)
Definition template (n : nat) : string :=
  NilEmpty.string_of_uint (Nat.to_uint n).

(** [s.split(sep)[1]] for a non-empty separator: the text between the first
    and the second occurrence of [sep], [undefined] when [sep] does not
    occur. *)
Definition split_1 (sep s : string) : option string :=
  match String.index 0 sep s with
  | None => None
  | Some i =>
      let start := i + String.length sep in
      let rest := String.substring start (String.length s - start) s in
      match String.index 0 sep rest with
      | None => Some rest
      | Some j => Some (String.substring 0 j rest)
      end
  end.

(** ** The status matrix and its table (lines 11-30, 299-303) *)

(** A row of [git.statusMatrix]: [[filepath, head, workdir, stage]].  The
    projections carry the names of the index constants of the class, so that
    [row[this.HEAD]] reads [HEAD row]. *)
Record Row : Set := {
  FILE : string;
  HEAD : nat;
  WORKDIR : nat;
  STAGE : nat
}.

Definition indexes : gmap string string :=
  list_to_map [
    ("000", "");
    ("003", "AD");
    ("020", "??");
    ("022", "A");
    ("023", "AM");
    ("100", "D ");
    ("101", " D");
    ("103", "MD");
    ("110", "D ??");
    ("111", "");
    ("120", "D ??");
    ("121", " M");
    ("122", "M ");
    ("123", "MM")
  ].

(** [index] is [None] where JavaScript has [undefined]. *)
Record FileStatusResult : Set := {
  index : option string;
  file_path : string
}.

Record Status : Set := {
  changed : list FileStatusResult;
  staged : list string
}.

Definition row_key (row : Row) : string :=
  template (HEAD row) +:+ template (WORKDIR row) +:+ template (STAGE row).

Definition getFileStatusResult (row : Row) : FileStatusResult :=
  let index := indexes !! row_key row in
  {| index := index; file_path := FILE row |}.

(** ** Trees and the walker of the library *)

(** What a [TREE] walker reads from the object store: a blob, or a tree with
    its named entries in the order [readdir] lists them. *)
Inductive TreeNode : Set :=
| Blob (oid : string)
| Tree (oid : string) (entries : list (string * TreeNode)).

Inductive EntryType : Set := blob | tree.

Global Instance EntryType_eq_dec : EqDecision EntryType.
Proof. solve_decision. Defined.

(** [entry.type()] and [entry.oid()] of a walker entry. *)
Definition entry_type (entry : TreeNode) : EntryType :=
  match entry with
  | Blob _ => blob
  | Tree _ _ => tree
  end.

Definition entry_oid (entry : TreeNode) : string :=
  match entry with
  | Blob oid => oid
  | Tree oid _ => oid
  end.

(** [readdir]: the entries of a tree, nothing for a blob or a missing
    entry. *)
Definition readdir (entry : option TreeNode) : list (string * TreeNode) :=
  match entry with
  | Some (Tree _ entries) => entries
  | _ => []
  end.

Fixpoint weight (t : TreeNode) : nat :=
  match t with
  | Blob _ => 1
  | Tree _ entries =>
      S ((fix sum (l : list (string * TreeNode)) : nat :=
            match l with
            | [] => 0
            | (_, child) :: l' => weight child + sum l'
            end) entries)
  end.

Definition weight2 (entries : option TreeNode * option TreeNode) : nat :=
  from_option weight 0 entries.1 + from_option weight 0 entries.2.

(** A child of a visited path: its name and its entry on either side. *)
Definition Child : Set := string * option TreeNode * option TreeNode.

(** Modelled from the spec: [unionOfIterators] of isomorphic-git, which is
    not part of this repository.  The two listings are consumed head by head;
    the smaller head is yielded with [null] on the other side, equal heads
    are yielded together.  This is the synchronised walk of section 4.2. *)
Equations? unionOfIterators (l1 l2 : list (string * TreeNode)) : list Child
  by wf (length l1 + length l2) lt :=
  unionOfIterators [] [] := [];
  unionOfIterators ((x, a) :: l1') [] :=
    (x, Some a, None) :: unionOfIterators l1' [];
  unionOfIterators [] ((y, b) :: l2') :=
    (y, None, Some b) :: unionOfIterators [] l2';
  unionOfIterators ((x, a) :: l1') ((y, b) :: l2') :=
    if String.eqb x y then
      (x, Some a, Some b) :: unionOfIterators l1' l2'
    else if String.ltb x y then
      (x, Some a, None) :: unionOfIterators l1' ((y, b) :: l2')
    else
      (y, None, Some b) :: unionOfIterators ((x, a) :: l1') l2'.
Proof. all: simpl; lia. Qed.

(** [join] of the library, on the paths the walker builds: the root is ["."]
    and disappears from the paths below it. *)
Definition join (parent name : string) : string :=
  if decide (parent = ".") then name else parent +:+ "/" +:+ name.

Equations map_In {A B : Type} (l : list A) (f : ∀ x : A, In x l → B) : list B :=
  map_In [] _ := [];
  map_In (x :: xs) f := f x _ :: map_In xs (λ y H, f y _).

Section walk.
(** [T] is what the [map] callback returns, [L] what it prints. *)
Context {T L : Type}.
Variable map : string → option TreeNode → option TreeNode → option T * list L.

(** The default [reduce]: the parent, unless [undefined], in front of the
    flattened children. *)
Definition reduce (parent : option T * list L)
    (children : list (list T * list L)) : list T * list L :=
  (option_list parent.1 ++ concat (fst <$> children),
   parent.2 ++ concat (snd <$> children)).

(** Modelled from the spec: [git.walk] of isomorphic-git with the default
    [reduce] and [iterate].  Each path of the union of the trees is handed
    to [map] with the entry of either side ([None] for [null]), children
    are walked whatever a callback that never answers [null] returns, and
    the results are flattened parent first. *)
Equations? walk (fullpath : string) (entries : option TreeNode * option TreeNode)
  : list T * list L by wf (weight2 entries) lt :=
  walk fullpath (A, B) :=
    reduce (map fullpath A B)
      (map_In (unionOfIterators (readdir A) (readdir B))
         (λ child Hchild, walk (join fullpath child.1.1) (child.1.2, child.2))).
Proof.
  destruct child as [[name a] b]; unfold weight2; simpl.
  assert (Hdir : ∀ e n c, In (n, c) (readdir e) → weight c < from_option weight 0 e).
  { intros [[|o es]|] n c; simpl; try tauto.
    induction es as [|[m d] es IH]; simpl; [tauto|].
    intros [Heq|Hin]; [injection Heq as -> ->; lia|].
    specialize (IH Hin). lia. }
  pose proof (Hdir A) as HA. pose proof (Hdir B) as HB.
  revert Hchild HA HB.
  generalize (from_option weight 0 A) (from_option weight 0 B).
  generalize (readdir A) (readdir B). clear.
  intros l1 l2 wa wb.
  funelim (unionOfIterators l1 l2); simp unionOfIterators; simpl;
    try clear Heqcall; intros Hin HA HB; [done|..];
    try (destruct (String.eqb _ _); [|destruct (String.ltb _ _)]);
    (destruct Hin as [[= <- <- <-]|Hin]; simpl;
     [try pose proof (HA _ _ (or_introl eq_refl));
      try pose proof (HB _ _ (or_introl eq_refl)); lia
     |eauto 10]).
Qed.
End walk.

(** ** The diff callback (lines 332-367) *)

Inductive DiffType : Set := equal | modify | remove | add.

Global Instance DiffType_eq_dec : EqDecision DiffType.
Proof. solve_decision. Defined.

Record DiffResult : Set := {
  path : string;
  type : DiffType
}.

Global Instance DiffResult_eq_dec : EqDecision DiffResult.
Proof. solve_decision. Defined.

(** An argument of [console.log]. *)
Inductive ConsoleArg : Set :=
| Text (s : string)
| Entry (entry : option TreeNode).

(** The [map] callback handed to [git.walk].  [A] and [B] are [None] where
    the walker passes [null]; [A?.type()] and [A?.oid()] are then
    [undefined], here [None].  The result is [None] where the callback
    returns [undefined]; the second component is what it prints. *)
Definition diff_map (filepath : string) (A B : option TreeNode)
  : option DiffResult * list ConsoleArg :=
  if decide (filepath = ".") then (None, [])
  else if decide (entry_type <$> A = Some tree ∨ entry_type <$> B = Some tree)
  then (None, [])
  else
    let Aoid := entry_oid <$> A in
    let Boid := entry_oid <$> B in
    let type := equal in
    let type := if decide (Aoid ≠ Boid) then modify else type in
    let type := if decide (Aoid = None) then remove else type in
    let type := if decide (Boid = None) then add else type in
    let printed :=
      if decide (Aoid = None ∧ Boid = None)
      then [Text "Something weird happened:"; Entry A; Entry B]
      else [] in
    (Some {| path := "/" +:+ filepath; type := type |}, printed).

(** ** The world of the methods *)

Module PluginState.
Inductive t : Set := status | commit | pull | push.
End PluginState.

(** The fields of the plugin object the class writes to: [setState],
    [lastUpdate] and the errors handed to [displayError]. *)
Record Plugin : Set := {
  state : PluginState.t;
  lastUpdate : Z;
  displayed : list Exception
}.

Record ReadCommitResult : Set := {
  oid : string;
  payload : string
}.

Record BranchInfo : Set := {
  current : string;
  tracking : string;
  branches : list string;
  remoteBranches : option (list string)
}.

Record World (Repo : Type) : Type := {
  repo : Repo;
  plugin : Plugin;
  console : list ConsoleArg;
  clock : Z
}.
Arguments repo {Repo} _.
Arguments plugin {Repo} _.
Arguments console {Repo} _.
Arguments clock {Repo} _.

(** The calls into isomorphic-git, over the state [Repo] of the file system
    under [this.dir].  Reading calls leave it as it is; [add], [remove] and
    [commit] answer with the state they leave.  [git_TREE ref] is the tree a
    [TREE({ ref })] walker starts from. *)
Class Git (Repo : Type) : Type := {
  git_statusMatrix : Repo → Outcome (list Row);
  git_log : nat → Repo → Outcome (list ReadCommitResult);
  git_currentBranch : Repo → Outcome (option string);
  git_listBranches : option string → Repo → Outcome (list string);
  git_getConfig : string → Repo → Outcome (option string);
  git_add : string → Repo → Outcome () * Repo;
  git_remove : string → Repo → Outcome () * Repo;
  git_commit : string → Repo → Outcome string * Repo;
  git_TREE : string → Repo → Outcome TreeNode
}.

(** What the class inherits from [GitManager], whose source is not part of
    [src/]. *)
Class GitManager (Repo : Type) : Type := {
  formatCommitMessage : World Repo → Outcome string * World Repo
}.

Section IsomorphicGit.
Context {Repo : Type} `{!Git Repo, !GitManager Repo}.

(** An [async] method: from the world it starts in to its outcome and the
    world it leaves. *)
Definition M (A : Type) : Type := World Repo → Outcome A * World Repo.

Global Instance M_ret : MRet M := λ A a w, (Returns a, w).

Global Instance M_bind : MBind M := λ A B k m w,
  match m w with
  | (Returns a, w') => k a w'
  | (Throws error, w') => (Throws error, w')
  end.

Global Instance M_fmap : FMap M := λ A B f m, a ← m; mret (f a).

Definition throw {A : Type} (error : Exception) : M A :=
  λ w, (Throws error, w).

Definition try_catch {A : Type} (body : M A) (handler : Exception → M A) : M A :=
  λ w,
    match body w with
    | (Returns a, w') => (Returns a, w')
    | (Throws error, w') => handler error w'
    end.

(** The worlds the writes of the class leave: a changed repository,
    [setState], [displayError], [lastUpdate = Date.now()] and
    [console.log]. *)
Definition with_repo (r : Repo) (w : World Repo) : World Repo :=
  {| repo := r; plugin := plugin w; console := console w; clock := clock w |}.

Definition after_setState (s : PluginState.t) (w : World Repo) : World Repo :=
  {| repo := repo w;
     plugin := {| state := s; lastUpdate := lastUpdate (plugin w);
                  displayed := displayed (plugin w) |};
     console := console w; clock := clock w |}.

Definition after_displayError (error : Exception) (w : World Repo) : World Repo :=
  {| repo := repo w;
     plugin := {| state := state (plugin w); lastUpdate := lastUpdate (plugin w);
                  displayed := displayed (plugin w) ++ [error] |};
     console := console w; clock := clock w |}.

Definition after_lastUpdate (w : World Repo) : World Repo :=
  {| repo := repo w;
     plugin := {| state := state (plugin w); lastUpdate := clock w;
                  displayed := displayed (plugin w) |};
     console := console w; clock := clock w |}.

Definition after_console_log (args : list ConsoleArg) (w : World Repo) : World Repo :=
  {| repo := repo w; plugin := plugin w; console := console w ++ args; clock := clock w |}.

(** Awaiting a call that reads the repository, and one that changes it. *)
Definition await {A : Type} (call : Repo → Outcome A) : M A :=
  λ w, (call (repo w), w).

Definition await_update {A : Type} (call : Repo → Outcome A * Repo) : M A :=
  λ w, ((call (repo w)).1, with_repo (call (repo w)).2 w).

(** [await Promise.all(rows.map(f))], the calls taken in the order of the
    rows. *)
Fixpoint forEach {A : Type} (f : A → M ()) (l : list A) : M () :=
  match l with
  | [] => mret ()
  | x :: l' => f x;; forEach f l'
  end.

Definition setState (s : PluginState.t) : M () :=
  λ w, (Returns (), after_setState s w).

Definition displayError (error : Exception) : M () :=
  λ w, (Returns (), after_displayError error w).

(** [this.plugin.lastUpdate = Date.now()] *)
Definition touch_lastUpdate : M () :=
  λ w, (Returns (), after_lastUpdate w).

Definition console_log (args : list ConsoleArg) : M () :=
  λ w, (Returns (), after_console_log args w).

(** *** [status] (lines 39-58) *)
Definition status : M Status :=
  setState PluginState.status;;
  try_catch
    (status ← await git_statusMatrix;
     let changed :=
       getFileStatusResult <$> filter (λ row, HEAD row ≠ WORKDIR row) status in
     let staged :=
       FILE <$> filter (λ row, STAGE row = 3 ∨ STAGE row = 2) status in
     mret {| changed := changed; staged := staged |})
    (λ error, displayError error;; throw error).

(** *** [branchInfo] (lines 176-222) *)
Definition branchInfo (listRemoteBranches : bool) : M BranchInfo :=
  try_catch
    (current ← default "" <$> await git_currentBranch;
     branches ← await (git_listBranches None);
     remote ← default "origin" <$>
       await (git_getConfig ("branch." +:+ current +:+ ".remote"));
     merge ← await (git_getConfig ("branch." +:+ current +:+ ".merge"));
     let branch := default "" (merge ≫= split_1 "refs/heads") in
     remoteBranches ←
       (if listRemoteBranches then
          listed ← await (git_listBranches (Some remote));
          let listed := filter (λ e, e ≠ "HEAD") listed in
          mret (Some ((λ e, remote +:+ "/" +:+ e) <$> listed))
        else mret None);
     mret {| current := current; tracking := remote +:+ branch;
             branches := branches; remoteBranches := remoteBranches |})
    (λ error, displayError error;; throw error).

(** *** [getCurrentCommit] (lines 305-320) *)
Definition getCurrentCommit : M (option ReadCommitResult) :=
  try_catch
    (commits ← await (git_log 1);
     mret (head commits))
    (λ error,
       branch ← branchInfo false;
       if decide (code error = Some "NotFoundError"
                  ∧ data_what error = Some ("refs/heads/" +:+ current branch))
       then mret None
       else throw error).

(** *** [diff] and [getChangedFiles] (lines 322-369) *)
Definition diff (commitHash1 commitHash2 : string) : M (list DiffResult) :=
  treeA ← await (git_TREE commitHash1);
  treeB ← await (git_TREE commitHash2);
  let walked := walk diff_map "." (Some treeA, Some treeB) in
  console_log walked.2;;
  mret walked.1.

Definition getChangedFiles (commitHash1 commitHash2 : string) : M nat :=
  files ← diff commitHash1 commitHash2;
  mret (length (filter (λ file, type file ≠ equal) files)).

(** *** [commitAll] (lines 60-94) *)

(** The callback of [status.map]: [git.add] where the work-tree value is
    truthy, [git.remove] where it is 0. *)
Definition stage_row (row : Row) : M () :=
  if decide (WORKDIR row ≠ 0)
  then await_update (git_add (FILE row))
  else await_update (git_remove (FILE row)).

(** [message ?? await this.formatCommitMessage()] *)
Definition message_or_default (message : option string) : M string :=
  match message with
  | Some message => mret message
  | None => formatCommitMessage
  end.

Definition commitAll (message : option string) : M (option nat) :=
  setState PluginState.commit;;
  try_catch
    (commitBefore ← getCurrentCommit;
     status ← await git_statusMatrix;
     forEach stage_row status;;
     formatMessage ← message_or_default message;
     await_update (git_commit formatMessage);;
     commitAfter ← getCurrentCommit;
     touch_lastUpdate;;
     match commitBefore with
     | Some commitBefore =>
         match commitAfter with
         | Some commitAfter =>
             Some <$> getChangedFiles (oid commitBefore) (oid commitAfter)
         | None => throw TypeError
         end
     | None => mret None
     end)
    (λ error, displayError error;; throw error).
End IsomorphicGit.

(** ** Notions the properties are stated with *)

(** The paths of the blobs of a tree, as the walker spells them below
    [fullpath]. *)
Fixpoint leaves (fullpath : string) (t : TreeNode) : list string :=
  match t with
  | Blob _ => [fullpath]
  | Tree _ entries =>
      (fix below (l : list (string * TreeNode)) : list string :=
         match l with
         | [] => []
         | (name, child) :: l' => leaves (join fullpath name) child ++ below l'
         end) entries
  end.

(** [reaches t names t']: following [names] down from [t] leads to [t']. *)
Inductive reaches : TreeNode → list string → TreeNode → Prop :=
| reaches_here (t : TreeNode) : reaches t [] t
| reaches_below (o : string) (entries : list (string * TreeNode))
    (name : string) (child : TreeNode) (names : list string) (t' : TreeNode) :
    (name, child) ∈ entries →
    reaches child names t' →
    reaches (Tree o entries) (name :: names) t'.

(** The entry a listing has under a name. *)
Fixpoint entry_named (name : string) (entries : list (string * TreeNode))
  : option TreeNode :=
  match entries with
  | [] => None
  | (name', child) :: rest =>
      if decide (name' = name) then Some child else entry_named name rest
  end.

(** The entry found by following [names] down from [t], if there is one. *)
Fixpoint entry_under (t : TreeNode) (names : list string) : option TreeNode :=
  match names with
  | [] => Some t
  | name :: rest =>
      entry_named name (readdir (Some t)) ≫= λ child, entry_under child rest
  end.

(** A listing as the library keeps it after parsing a tree: the names in
    strictly increasing order, each below all the names after it. *)
Fixpoint increasing (entries : list (string * TreeNode)) : bool :=
  match entries with
  | [] => true
  | (name, _) :: rest =>
      forallb (λ entry, String.ltb name entry.1) rest && increasing rest
  end.

(** All the listings of a tree are in that order. *)
Fixpoint sorted_tree (t : TreeNode) : bool :=
  match t with
  | Blob _ => true
  | Tree _ entries =>
      increasing entries
      && (fix all (l : list (string * TreeNode)) : bool :=
            match l with
            | [] => true
            | (_, child) :: l' => sorted_tree child && all l'
            end) entries
  end.

(** The path the walker gives to the entry [names] below the root. *)
Definition path_of (names : list string) : string := foldl join "." names.

(** A call of the [map] callback: the path and the entry of either side. *)
Definition Visit : Set := string * option TreeNode * option TreeNode.

Definition spy (fullpath : string) (A B : option TreeNode)
  : option Visit * list ConsoleArg :=
  (Some (fullpath, A, B), []).

(** All the calls [git.walk] makes on two trees, in order. *)
Definition visits (treeA treeB : TreeNode) : list Visit :=
  (walk spy "." (Some treeA, Some treeB)).1.

(** The count of section 4.2 in the words of the specification: one for each
    entry whose kind is not [equal]. *)
Fixpoint countChangedFiles_spec (entries : list DiffResult) : nat :=
  match entries with
  | [] => 0
  | entry :: rest =>
      match type entry with
      | equal => countChangedFiles_spec rest
      | _ => S (countChangedFiles_spec rest)
      end
  end.

(** ** A small repository to run the methods on *)

Module Vault.
Record t : Type := {
  readable : bool;
  branch : option string;
  tip : option ReadCommitResult;
  matrix : list Row;
  config : gmap string string;
  commits : gmap string TreeNode;
  staging : TreeNode;
  touched : list string
}.

Definition NotFoundError (what : string) : Exception :=
  {| code := Some "NotFoundError"; data_what := Some what |}.

Definition InternalError : Exception :=
  {| code := Some "InternalError"; data_what := None |}.

(** A reading call: it fails on a file system that cannot be read. *)
Definition reading {A : Type} (r : t) (answer : Outcome A) : Outcome A :=
  if readable r then answer else Throws InternalError.

Definition touch (filepath : string) (r : t) : t :=
  {| readable := readable r; branch := branch r; tip := tip r;
     matrix := matrix r; config := config r; commits := commits r;
     staging := staging r; touched := touched r ++ [filepath] |}.

Definition commit (message : string) (r : t) : Outcome string * t :=
  let made := {| oid := "commit " +:+ message; payload := message |} in
  (Returns (oid made),
   {| readable := readable r; branch := branch r; tip := Some made;
      matrix := []; config := config r;
      commits := <[oid made := staging r]> (commits r);
      staging := staging r; touched := [] |}).

(** [git.log]: the tip of the branch; without a tip the reference that could
    not be resolved, which is [HEAD] itself where there is no branch. *)
Definition log (depth : nat) (r : t) : Outcome (list ReadCommitResult) :=
  match tip r, branch r with
  | Some c, _ => Returns (take depth [c])
  | None, Some name => Throws (NotFoundError ("refs/heads/" +:+ name))
  | None, None => Throws (NotFoundError "HEAD")
  end.

Global Instance git : Git t := {|
  git_statusMatrix r := reading r (Returns (matrix r));
  git_log depth r := reading r (log depth r);
  git_currentBranch r := reading r (Returns (branch r));
  git_listBranches remote r :=
    reading r
      (Returns (match remote with
                | None => option_list (branch r)
                | Some _ => ["HEAD"] ++ option_list (branch r)
                end));
  git_getConfig key r := reading r (Returns (config r !! key));
  git_add filepath r := (Returns (), touch filepath r);
  git_remove filepath r := (Returns (), touch filepath r);
  git_commit := commit;
  git_TREE ref r :=
    reading r
      (match commits r !! ref with
       | Some root => Returns root
       | None => Throws (NotFoundError ref)
       end)
|}.

Global Instance manager : GitManager t := {|
  formatCommitMessage w := (Returns "vault backup", w)
|}.

(** The two trees of example 6 of the specification. *)
Definition treeA : TreeNode :=
  Tree "ta" [("notes", Tree "na" [("a.md", Blob "h2")]); ("readme.md", Blob "h1")].

Definition treeB : TreeNode :=
  Tree "tb" [("notes", Tree "nb" [("a.md", Blob "h3"); ("b.md", Blob "h4")]);
             ("readme.md", Blob "h1")].

Definition plugin0 : Plugin :=
  {| state := PluginState.status; lastUpdate := 0; displayed := [] |}.

Definition world (r : t) : World t :=
  {| repo := r; plugin := plugin0; console := []; clock := 1700000000000 |}.

(** A repository whose branch has no commit yet. *)
Definition fresh : t :=
  {| readable := true; branch := Some "main"; tip := None;
     matrix := [ {| FILE := "readme.md"; HEAD := 0; WORKDIR := 2; STAGE := 0 |} ];
     config := ∅; commits := ∅; staging := treeA; touched := [] |}.

(** A repository with [treeA] committed and [treeB] about to be. *)
Definition tracked : t :=
  {| readable := true; branch := Some "main";
     tip := Some {| oid := "c0"; payload := "first" |};
     matrix := [ {| FILE := "notes/a.md"; HEAD := 1; WORKDIR := 2; STAGE := 1 |};
                 {| FILE := "notes/b.md"; HEAD := 0; WORKDIR := 2; STAGE := 0 |};
                 {| FILE := "readme.md"; HEAD := 1; WORKDIR := 1; STAGE := 1 |} ];
     config := {[ "branch.main.remote" := "origin";
                  "branch.main.merge" := "refs/heads/main" ]};
     commits := {[ "c0" := treeA; "c1" := treeB ]};
     staging := treeB; touched := [] |}.

(** A directory that is no repository: [HEAD] does not resolve. *)
Definition missing : t :=
  {| readable := true; branch := None; tip := None; matrix := [];
     config := ∅; commits := ∅; staging := treeA; touched := [] |}.

(** A repository on a file system that cannot be read. *)
Definition unreadable : t :=
  {| readable := false; branch := Some "main";
     tip := Some {| oid := "c0"; payload := "first" |}; matrix := [];
     config := ∅; commits := {[ "c0" := treeA ]}; staging := treeA; touched := [] |}.

(** A repository in which [readme.md] was staged with new content and then
    put back in the work tree as it is in the commit: the index differs from
    both, and the row is [1, 1, 3], a key the table does not list. *)
Definition restaged : t :=
  {| readable := true; branch := Some "main";
     tip := Some {| oid := "c0"; payload := "first" |};
     matrix := [ {| FILE := "notes/a.md"; HEAD := 1; WORKDIR := 2; STAGE := 1 |};
                 {| FILE := "readme.md"; HEAD := 1; WORKDIR := 1; STAGE := 3 |} ];
     config := ∅; commits := {[ "c0" := treeA ]}; staging := treeA; touched := [] |}.

(** A status matrix with a row of the declared type, [0 | 1], [0 | 1 | 2],
    [0 | 1 | 2 | 3], whose key is outside the table and whose HEAD and
    work-tree values differ: [0, 1, 0]. *)
Definition odd : t :=
  {| readable := true; branch := Some "main"; tip := None;
     matrix := [ {| FILE := "f"; HEAD := 0; WORKDIR := 1; STAGE := 0 |} ];
     config := ∅; commits := ∅; staging := treeA; touched := [] |}.

(** A repository on the branch [a/refs/heads/b]: its merge reference holds
    [refs/heads] twice. *)
Definition nested : t :=
  {| readable := true; branch := Some "a/refs/heads/b";
     tip := Some {| oid := "c0"; payload := "first" |}; matrix := [];
     config := {[ "branch.a/refs/heads/b.merge" := "refs/heads/a/refs/heads/b" ]};
     commits := {[ "c0" := treeA ]}; staging := treeA; touched := [] |}.
End Vault.

(** ** More of the class *)

(** *** The constructor (lines 32-37) *)

(** [s.replace(pattern, replacement)] with a string pattern: the first
    occurrence only. *)
Definition replace_first (pattern replacement s : string) : string :=
  match String.index 0 pattern s with
  | None => s
  | Some i =>
      let after := i + String.length pattern in
      String.substring 0 i s +:+ replacement
        +:+ String.substring after (String.length s - after) s
  end.

(** [s.substring(0, s.indexOf(mark))]: [indexOf] answers -1 when [mark] does
    not occur and [substring] takes a negative bound for 0. *)
Definition before_first (mark s : string) : string :=
  match String.index 0 mark s with
  | None => ""
  | Some i => String.substring 0 i s
  end.

(** The value the constructor leaves in [this.dir], from what
    [getResourcePath("")] answers.  [decodeURIComponent] is the one of
    the JavaScript runtime; it throws on a malformed escape. *)
Definition constructor_dir (decodeURIComponent : string → Outcome string)
    (resourcePath : string) : Outcome string :=
  outcome_map (before_first "?")
    (decodeURIComponent (replace_first "app://local/" "" resourcePath)).

(** *** The calls that reach the remote, and the host of the plugin *)

(** What [onAuth] answers, and the arguments [pull], [push] and [fetch]
    pass beside [fs] and [dir]. *)
Record Auth : Set := {
  username : option string;
  password : option string
}.

Record RemoteArgs : Set := {
  corsProxy : option string;
  onAuth : Auth
}.

Class GitRemote (Repo : Type) : Type := {
  git_pull : RemoteArgs → Repo → Outcome () * Repo;
  git_push : RemoteArgs → Repo → Outcome () * Repo;
  git_fetch : RemoteArgs → Repo → Outcome () * Repo
}.

(** What the class reads from its host: [plugin.settings.proxyURL],
    [plugin.manifest.id], [window.localStorage], and the [Notice] it shows,
    which is no part of the repository. *)
Class Obsidian (Repo : Type) : Type := {
  settings_proxyURL : option string;
  manifest_id : string;
  localStorage_getItem : string → option string;
  Notice : string → World Repo → World Repo;
  Notice_repo : ∀ message w, repo (Notice message w) = repo w
}.

(** A config value or a setting in a condition: [undefined] and the empty
    string are falsy. *)
Definition truthy (value : option string) : Prop :=
  ∃ s, value = Some s ∧ s ≠ "".

Global Instance truthy_dec (value : option string) : Decision (truthy value).
Proof.
  destruct value as [s|]; [destruct (decide (s = "")) as [->|Hs]|].
  - right. intros (s & [= <-] & Hs). done.
  - left. by exists s.
  - right. intros (s & [=] & _).
Defined.

(** The answers of [checkRequirements]. *)
Inductive Requirements : Set := valid | missing_repo | wrong_settings.

Section Remote.
Context {Repo : Type} `{!Git Repo, !GitManager Repo, !GitRemote Repo, !Obsidian Repo}.

(** The arguments of lines 104-110, 132-138 and 285-291. *)
Definition remote_args : RemoteArgs :=
  {| corsProxy := settings_proxyURL;
     onAuth :=
       {| username := localStorage_getItem (manifest_id +:+ ":username");
          password := localStorage_getItem (manifest_id +:+ ":password") |} |}.

(** [getChangedFiles(commitBefore.oid, commitAfter.oid)] of line 116, where
    neither commit is checked: reading [oid] of [undefined] throws. *)
Definition changed_between (commitBefore commitAfter : option ReadCommitResult)
  : M nat :=
  match commitBefore, commitAfter with
  | Some commitBefore, Some commitAfter =>
      getChangedFiles (oid commitBefore) (oid commitAfter)
  | _, _ => throw TypeError
  end.

(** *** [pull] (lines 96-121) *)
Definition pull : M nat :=
  setState PluginState.pull;;
  try_catch
    (commitBefore ← getCurrentCommit;
     await_update (git_pull remote_args);;
     touch_lastUpdate;;
     commitAfter ← getCurrentCommit;
     changed_between commitBefore commitAfter)
    (λ error, displayError error;; throw error).

(** *** [push] and [canPush] (lines 123-151) *)
Definition push : M nat :=
  setState PluginState.push;;
  try_catch
    (branchInfo ← branchInfo false;
     changedFiles ← getChangedFiles (current branchInfo) (tracking branchInfo);
     await_update (git_push remote_args);;
     touch_lastUpdate;;
     mret changedFiles)
    (λ error, displayError error;; throw error).

Definition canPush : M bool :=
  branchInfo ← branchInfo false;
  changedFiles ← getChangedFiles (current branchInfo) (tracking branchInfo);
  mret (bool_decide (changedFiles ≠ 0)).

(** *** [checkRequirements] (lines 153-174) *)

(** The [try] of lines 154-164: [Some missing_repo] where the handler
    returns from the method, [None] where control goes on to line 165, which
    is also where every other error of [git.log] ends. *)
Definition checkRequirements_log : M (option Requirements) :=
  try_catch
    (await (git_log 1);; mret None)
    (λ error,
       if decide (code error = Some "NotFoundError" ∧ data_what error = Some "HEAD")
       then mret (Some missing_repo)
       else mret None).

Definition checkRequirements : M Requirements :=
  returned ← checkRequirements_log;
  match returned with
  | Some answer => mret answer
  | None =>
      user ← await (git_getConfig "user.name");
      email ← await (git_getConfig "user.email");
      remoteURL ← await (git_getConfig "remote.origin.url");
      if decide (¬ truthy user ∨ ¬ truthy email ∨ ¬ truthy remoteURL)
      then mret wrong_settings
      else mret valid
  end.

(** *** [fetch] (lines 276-297) *)
Definition fetch : M () :=
  if decide (¬ truthy settings_proxyURL)
  then λ w, (Returns (), Notice "Please specify a proxy URL" w)
  else
    try_catch
      (await_update (git_fetch remote_args))
      (λ error, displayError error;; throw error).
End Remote.

(** ** More notions the properties are stated with *)

(** The kind of an entry when the two sides change places. *)
Definition swap_type (t : DiffType) : DiffType :=
  match t with
  | equal => equal
  | modify => modify
  | remove => add
  | add => remove
  end.

Definition swap_sides (file : DiffResult) : DiffResult :=
  {| path := path file; type := swap_type (type file) |}.

(** A child, or a visit, with its two sides exchanged. *)
Definition swap_child (child : Child) : Child := (child.1.1, child.2, child.1.2).

(** ** A remote and a host for the small repository *)

Module Origin.
(** Pulling moves the tip to the commit [c1] of the remote; every call to
    the remote needs a proxy. *)
Definition with_tip (c : ReadCommitResult) (r : Vault.t) : Vault.t :=
  {| Vault.readable := Vault.readable r; Vault.branch := Vault.branch r;
     Vault.tip := Some c; Vault.matrix := Vault.matrix r;
     Vault.config := Vault.config r; Vault.commits := Vault.commits r;
     Vault.staging := Vault.staging r; Vault.touched := Vault.touched r |}.

Definition CorsError : Exception :=
  {| code := Some "HttpError"; data_what := None |}.

Definition through_proxy (args : RemoteArgs) (r : Vault.t) (done : Vault.t)
  : Outcome () * Vault.t :=
  if decide (truthy (corsProxy args)) then (Returns (), done)
  else (Throws CorsError, r).

Global Instance remote : GitRemote Vault.t := {|
  git_pull args r :=
    through_proxy args r (with_tip {| oid := "c1"; payload := "second" |} r);
  git_push args r := through_proxy args r r;
  git_fetch args r := through_proxy args r r
|}.

(** The host shows a notice on the console of the model. *)
Global Instance host : Obsidian Vault.t := {|
  settings_proxyURL := Some "https://cors.example";
  manifest_id := "obsidian-git";
  localStorage_getItem key :=
    if decide (key = "obsidian-git:username") then Some "vinzent" else None;
  Notice message w :=
    {| repo := repo w; plugin := plugin w;
       console := console w ++ [Text message]; clock := clock w |};
  Notice_repo _ _ := eq_refl
|}.

(** A host in whose settings no proxy URL was entered. *)
Definition offline : Obsidian Vault.t := {|
  settings_proxyURL := Some "";
  manifest_id := "obsidian-git";
  localStorage_getItem key := None;
  Notice message w :=
    {| repo := repo w; plugin := plugin w;
       console := console w ++ [Text message]; clock := clock w |};
  Notice_repo _ _ := eq_refl
|}.

(** A repository whose branch [main] is at [treeB] and follows
    [origin/main], which is at [treeA]. *)
Definition ahead : Vault.t :=
  {| Vault.readable := true; Vault.branch := Some "main";
     Vault.tip := Some {| oid := "c1"; payload := "second" |};
     Vault.matrix := [];
     Vault.config := {[ "branch.main.remote" := "origin";
                        "branch.main.merge" := "refs/heads/main";
                        "user.name" := "vinzent";
                        "user.email" := "vinzent@example.org";
                        "remote.origin.url" := "https://example.org/vault.git" ]};
     Vault.commits := {[ "c0" := Vault.treeA; "c1" := Vault.treeB;
                         "main" := Vault.treeB; "origin/main" := Vault.treeA ]};
     Vault.staging := Vault.treeB; Vault.touched := [] |}.
End Origin.

(** * Properties *)

(** ** The status table and [status] *)

Lemma indexes_lookup_listed (key code : string) :
  indexes !! key = Some code →
  (key, code) ∈
    [("000", ""); ("003", "AD"); ("020", "??"); ("022", "A"); ("023", "AM");
     ("100", "D "); ("101", " D"); ("103", "MD"); ("110", "D ??"); ("111", "");
     ("120", "D ??"); ("121", " M"); ("122", "M "); ("123", "MM")].
Proof. unfold indexes. apply elem_of_list_to_map_2. Qed.

(** C2: every key of the fixed table is classified with the code listed for
    it (000 is the empty code, 003 is AD, 020 is ??, 022 is A, 023 is AM,
    100 is D-space, 101 is space-D, 103 is MD, 110 and 120 are D-space-??,
    111 is the empty code, 121 is space-M, 122 is M-space, 123 is MM), and
    whenever classification yields a code, the key and the code are one of
    these fourteen pairs. *)
Theorem getFileStatusResult_table :
  ∀ file : string,
    let classify h w s :=
      index (getFileStatusResult {| FILE := file; HEAD := h; WORKDIR := w; STAGE := s |}) in
    (classify 0 0 0 = Some ""
     ∧ classify 0 0 3 = Some "AD"
     ∧ classify 0 2 0 = Some "??"
     ∧ classify 0 2 2 = Some "A"
     ∧ classify 0 2 3 = Some "AM"
     ∧ classify 1 0 0 = Some "D "
     ∧ classify 1 0 1 = Some " D"
     ∧ classify 1 0 3 = Some "MD"
     ∧ classify 1 1 0 = Some "D ??"
     ∧ classify 1 1 1 = Some ""
     ∧ classify 1 2 0 = Some "D ??"
     ∧ classify 1 2 1 = Some " M"
     ∧ classify 1 2 2 = Some "M "
     ∧ classify 1 2 3 = Some "MM")
    ∧ ∀ (row : Row) (code : string),
        index (getFileStatusResult row) = Some code →
        (row_key row, code) ∈
          [("000", ""); ("003", "AD"); ("020", "??"); ("022", "A"); ("023", "AM");
           ("100", "D "); ("101", " D"); ("103", "MD"); ("110", "D ??"); ("111", "");
           ("120", "D ??"); ("121", " M"); ("122", "M "); ("123", "MM")].
Proof.
  intros file classify. split.
  - repeat split; vm_compute; reflexivity.
  - intros row code Hcode. apply indexes_lookup_listed, Hcode.
Qed.

Lemma getFileStatusResult_table_witness :
  index (getFileStatusResult {| FILE := "notes/a.md"; HEAD := 1; WORKDIR := 2; STAGE := 3 |})
  = Some "MM"
  ∧ ("123", "MM") ∈
      [("000", ""); ("003", "AD"); ("020", "??"); ("022", "A"); ("023", "AM");
       ("100", "D "); ("101", " D"); ("103", "MD"); ("110", "D ??"); ("111", "");
       ("120", "D ??"); ("121", " M"); ("122", "M "); ("123", "MM")].
Proof.
  destruct (getFileStatusResult_table "notes/a.md") as [Hlisted Honly].
  split; [apply Hlisted|].
  apply (Honly {| FILE := "notes/a.md"; HEAD := 1; WORKDIR := 2; STAGE := 3 |} "MM").
  apply Hlisted.
Defined.

Section status_properties.
Context {Repo : Type} `{!Git Repo, !GitManager Repo}.

Lemma status_returns (w : World Repo) (rows : list Row) :
  git_statusMatrix (repo w) = Returns rows →
  status w =
    (Returns {| changed := getFileStatusResult <$> filter (λ row, HEAD row ≠ WORKDIR row) rows;
                staged := FILE <$> filter (λ row, STAGE row = 3 ∨ STAGE row = 2) rows |},
     after_setState PluginState.status w).
Proof.
  intros Hrows. unfold status, mbind, M_bind, try_catch, await, setState.
  simpl. rewrite Hrows. reflexivity.
Qed.

(** C4: when the status matrix can be read, [status] returns; the paths of
    [changed] are exactly the paths of the rows whose HEAD value differs
    from their work-tree value, and [staged] is exactly the paths of the
    rows whose stage value is 2 or 3. *)
Theorem status_changed_staged (w : World Repo) (rows : list Row) :
  git_statusMatrix (repo w) = Returns rows →
  ∃ (result : Status) (w' : World Repo),
    status w = (Returns result, w')
    ∧ file_path <$> changed result
      = FILE <$> filter (λ row, HEAD row ≠ WORKDIR row) rows
    ∧ staged result
      = FILE <$> filter (λ row, STAGE row = 2 ∨ STAGE row = 3) rows
    ∧ (∀ p : string,
         p ∈ file_path <$> changed result
         ↔ ∃ row, row ∈ rows ∧ FILE row = p ∧ HEAD row ≠ WORKDIR row)
    ∧ (∀ p : string,
         p ∈ staged result
         ↔ ∃ row, row ∈ rows ∧ FILE row = p ∧ (STAGE row = 2 ∨ STAGE row = 3)).
Proof.
  intros Hrows. eexists _, _. split; [apply (status_returns w rows Hrows)|].
  simpl. rewrite <- list_fmap_compose.
  assert (Hstage : filter (λ row, STAGE row = 3 ∨ STAGE row = 2) rows
                   = filter (λ row, STAGE row = 2 ∨ STAGE row = 3) rows).
  { apply list_filter_iff. intros row. tauto. }
  rewrite Hstage. repeat split.
  - intros (row & -> & Hin)%list_elem_of_fmap.
    apply list_elem_of_filter in Hin as [Hne Hin]. eauto.
  - intros (row & Hin & <- & Hne). apply list_elem_of_fmap.
    exists row. split; [done|]. apply list_elem_of_filter. done.
  - intros (row & -> & Hin)%list_elem_of_fmap.
    apply list_elem_of_filter in Hin as [Hst Hin]. eauto.
  - intros (row & Hin & <- & Hst). apply list_elem_of_fmap.
    exists row. split; [done|]. apply list_elem_of_filter. done.
Qed.

(** In a listing that names each path once, a row is known by its path. *)
Lemma row_of_path (rows : list Row) (row row' : Row) :
  NoDup (FILE <$> rows) → row ∈ rows → row' ∈ rows → FILE row' = FILE row →
  row' = row.
Proof.
  induction rows as [|first rows IH]; [by intros _ ?%elem_of_nil|].
  cbn [fmap list_fmap]. intros [Hfirst Hrest]%NoDup_cons.
  intros [->|Hin]%elem_of_cons [->|Hin']%elem_of_cons Hpath; [done| | |by apply IH].
  - destruct Hfirst. rewrite <- Hpath. apply list_elem_of_fmap. eauto.
  - destruct Hfirst. rewrite Hpath. apply list_elem_of_fmap. eauto.
Qed.

(** C3, as the code has it: a row whose key is not in the table never makes
    [status] fail.  When the matrix can be read [status] returns, whatever
    the keys of the rows.  Only the rows whose HEAD value differs from their
    work-tree value are classified: such a row with a key outside the table
    is reported in [changed] with its path and no code at all.  A row whose
    two values agree, as in [1, 1, 3], is not classified: in a matrix that
    names each path once it is absent from [changed].  In both cases the
    path is in [staged] exactly when the stage value is 2 or 3. *)
Theorem status_unknown_key_has_no_code (w : World Repo) (rows : list Row) :
  git_statusMatrix (repo w) = Returns rows →
  ∃ (result : Status) (w' : World Repo),
    status w = (Returns result, w')
    ∧ ∀ row : Row,
        row ∈ rows →
        indexes !! row_key row = None →
        (HEAD row ≠ WORKDIR row →
         getFileStatusResult row = {| index := None; file_path := FILE row |}
         ∧ {| index := None; file_path := FILE row |} ∈ changed result)
        ∧ (STAGE row = 2 ∨ STAGE row = 3 → FILE row ∈ staged result)
        ∧ (NoDup (FILE <$> rows) →
           (HEAD row = WORKDIR row → FILE row ∉ file_path <$> changed result)
           ∧ (FILE row ∈ staged result → STAGE row = 2 ∨ STAGE row = 3)).
Proof.
  intros Hrows. eexists _, _. split; [apply (status_returns w rows Hrows)|].
  intros row Hin Hkey. cbn [changed staged]. split_and!.
  - intros Hne.
    assert (Hrow : getFileStatusResult row = {| index := None; file_path := FILE row |}).
    { unfold getFileStatusResult. rewrite Hkey. reflexivity. }
    split; [exact Hrow|]. rewrite <- Hrow.
    apply list_elem_of_fmap. exists row. split; [done|].
    apply list_elem_of_filter. done.
  - intros Hstage. apply list_elem_of_fmap. exists row. split; [done|].
    apply list_elem_of_filter. split; [tauto|done].
  - intros Hunique. split.
    + intros Hsame. rewrite <- list_fmap_compose.
      intros (row' & Hpath & Hin')%list_elem_of_fmap.
      apply list_elem_of_filter in Hin' as [Hne Hin']. simpl in Hpath.
      rewrite (row_of_path rows row row' Hunique Hin Hin' (eq_sym Hpath)) in Hne.
      done.
    + intros (row' & Hpath & Hin')%list_elem_of_fmap.
      apply list_elem_of_filter in Hin' as [Hstage Hin'].
      rewrite (row_of_path rows row row' Hunique Hin Hin' (eq_sym Hpath)) in Hstage.
      tauto.
Qed.
End status_properties.

Lemma status_changed_staged_witness :
  ∃ (result : Status) (w' : World Vault.t),
    status (Vault.world Vault.tracked) = (Returns result, w')
    ∧ file_path <$> changed result = ["notes/a.md"; "notes/b.md"]
    ∧ staged result = [].
Proof.
  assert (Hrows : git_statusMatrix (repo (Vault.world Vault.tracked))
                  = Returns (Vault.matrix Vault.tracked)) by reflexivity.
  destruct (status_changed_staged (Vault.world Vault.tracked) _ Hrows)
    as (result & w' & Hrun & Hchanged & Hstaged & _).
  exists result, w'. split; [exact Hrun|]. split; [exact Hchanged|exact Hstaged].
Defined.

(** C3, as stated, fails: in the matrix of [Vault.restaged] the row of
    [readme.md] is [1, 1, 3], whose key 113 the table does not list, and
    [status] returns.  It reports [notes/a.md] with its code, leaves
    [readme.md] out of [changed] without classifying it, lists it in
    [staged], and throws nothing. *)
Lemma status_unknown_key_counterexample :
  {| FILE := "readme.md"; HEAD := 1; WORKDIR := 1; STAGE := 3 |}
    ∈ Vault.matrix Vault.restaged
  ∧ indexes !! row_key {| FILE := "readme.md"; HEAD := 1; WORKDIR := 1; STAGE := 3 |}
    = None
  ∧ (status (Vault.world Vault.restaged)).1
    = Returns {| changed := [ {| index := Some " M"; file_path := "notes/a.md" |} ];
                 staged := ["readme.md"] |}
  ∧ ∀ error : Exception, (status (Vault.world Vault.restaged)).1 ≠ Throws error.
Proof.
  split; [right; left|]. split; [vm_compute; reflexivity|].
  split; [vm_compute; reflexivity|].
  intros error. vm_compute. discriminate.
Qed.

Lemma status_unknown_key_has_no_code_witness :
  (∃ (result : Status) (w' : World Vault.t),
     status (Vault.world Vault.restaged) = (Returns result, w')
     ∧ ("readme.md" ∉ file_path <$> changed result)
     ∧ "readme.md" ∈ staged result)
  ∧ (∃ (result : Status) (w' : World Vault.t),
       status (Vault.world Vault.odd) = (Returns result, w')
       ∧ {| index := None; file_path := "f" |} ∈ changed result).
Proof.
  split.
  - assert (Hread : git_statusMatrix (repo (Vault.world Vault.restaged))
                    = Returns (Vault.matrix Vault.restaged)) by reflexivity.
    destruct (status_unknown_key_has_no_code (Vault.world Vault.restaged) _ Hread)
      as (result & w' & Hrun & Hrows).
    exists result, w'. split; [exact Hrun|].
    destruct (Hrows {| FILE := "readme.md"; HEAD := 1; WORKDIR := 1; STAGE := 3 |})
      as (_ & Hstaged & Hunique).
    + right. left.
    + vm_compute. reflexivity.
    + split.
      * apply Hunique; [|reflexivity].
        apply NoDup_cons. split; [|apply NoDup_singleton].
        intros Hin%list_elem_of_singleton. discriminate.
      * apply Hstaged. right. reflexivity.
  - assert (Hread : git_statusMatrix (repo (Vault.world Vault.odd))
                    = Returns (Vault.matrix Vault.odd)) by reflexivity.
    destruct (status_unknown_key_has_no_code (Vault.world Vault.odd) _ Hread)
      as (result & w' & Hrun & Hrows).
    exists result, w'. split; [exact Hrun|].
    destruct (Hrows {| FILE := "f"; HEAD := 0; WORKDIR := 1; STAGE := 0 |})
      as (Hchanged & _).
    + left.
    + vm_compute. reflexivity.
    + apply Hchanged. simpl. lia.
Defined.

(** ** The walker *)

Lemma map_In_fmap {A B : Type} (f : A → B) (l : list A) :
  map_In l (λ x _, f x) = f <$> l.
Proof.
  induction l as [|x l IH]; simp map_In; [done|]. cbn. by rewrite IH.
Qed.

(** One step of [walk]: the callback on the path itself, then the children
    of the union of both listings. *)
Lemma walk_step {T L : Type}
    (map : string → option TreeNode → option TreeNode → option T * list L)
    (fullpath : string) (A B : option TreeNode) :
  walk map fullpath (A, B)
  = reduce (map fullpath A B)
      ((λ child : Child, walk map (join fullpath child.1.1) (child.1.2, child.2))
         <$> unionOfIterators (readdir A) (readdir B)).
Proof. simp walk. by rewrite map_In_fmap. Qed.

Lemma TreeNode_nested_ind (P : TreeNode → Prop) :
  (∀ o, P (Blob o)) →
  (∀ o entries, Forall (λ entry, P entry.2) entries → P (Tree o entries)) →
  ∀ t, P t.
Proof.
  intros HBlob HTree.
  fix IH 1. intros [o|o entries]; [apply HBlob|].
  apply HTree. induction entries as [|[name child] entries IHentries].
  - constructor.
  - constructor; [apply IH|apply IHentries].
Qed.

Lemma unionOfIterators_same (l : list (string * TreeNode)) :
  unionOfIterators l l = (λ entry, (entry.1, Some entry.2, Some entry.2)) <$> l.
Proof.
  induction l as [|[name child] l IH]; simp unionOfIterators; [done|].
  rewrite String.eqb_refl. cbn. by rewrite IH.
Qed.

(** Every child comes from the listings, under its own name, and is present
    on one side at least. *)
Lemma unionOfIterators_child (l1 l2 : list (string * TreeNode)) (child : Child) :
  child ∈ unionOfIterators l1 l2 →
  (∀ x, child.1.2 = Some x → (child.1.1, x) ∈ l1)
  ∧ (∀ y, child.2 = Some y → (child.1.1, y) ∈ l2)
  ∧ (is_Some child.1.2 ∨ is_Some child.2).
Proof.
  funelim (unionOfIterators l1 l2); simp unionOfIterators;
    try clear Heqcall; intros Hin; [by apply elem_of_nil in Hin|..];
    try (destruct (String.eqb _ _) eqn:Heqb;
         [apply String.eqb_eq in Heqb as ->|destruct (String.ltb _ _)]);
    (apply elem_of_cons in Hin as [->|Hin]; simpl;
     [split_and!; [first [done|intros ? [= <-]; left]..|eauto]
     |match goal with
      | IH : ∀ _, _ ∈ ?u → _, Hin : _ ∈ ?u |- _ =>
          destruct (IH _ Hin) as (?&?&?)
      end;
      split_and!; first [done|intros; right; eauto]]).
Qed.

Lemma readdir_weight (entry : option TreeNode) (name : string) (child : TreeNode) :
  (name, child) ∈ readdir entry → weight child < from_option weight 0 entry.
Proof.
  destruct entry as [[o|o entries]|]; simpl; try by intros ?%elem_of_nil.
  induction entries as [|[name' child'] entries IH]; [by intros ?%elem_of_nil|].
  intros [[= <- <-]|Hin]%elem_of_cons; [lia|].
  specialize (IH Hin). lia.
Qed.

Lemma child_weight (A B : option TreeNode) (child : Child) :
  child ∈ unionOfIterators (readdir A) (readdir B) →
  weight2 (child.1.2, child.2) < weight2 (A, B).
Proof.
  intros (HA & HB & Hsome)%unionOfIterators_child.
  destruct child as [[name a] b]; unfold weight2; simpl in *.
  destruct a as [x|], b as [y|]; simpl.
  - pose proof (readdir_weight A name x (HA x eq_refl)).
    pose proof (readdir_weight B name y (HB y eq_refl)). lia.
  - pose proof (readdir_weight A name x (HA x eq_refl)). lia.
  - pose proof (readdir_weight B name y (HB y eq_refl)). lia.
  - destruct Hsome as [[? [=]]|[? [=]]].
Qed.

(** *** Listings in increasing order *)

Lemma ltb_irrefl (x : string) : String.ltb x x = false.
Proof.
  unfold String.ltb. pose proof (String.compare_antisym x x) as H.
  by destruct (String.compare x x).
Qed.

Lemma ltb_asym (x y : string) : String.ltb x y = true → String.ltb y x = false.
Proof.
  unfold String.ltb. rewrite (String.compare_antisym x y).
  by destruct (String.compare y x).
Qed.

Lemma ltb_total (x y : string) :
  String.eqb x y = false → String.ltb x y = false → String.ltb y x = true.
Proof.
  unfold String.ltb. intros Hne%String.eqb_neq.
  rewrite (String.compare_antisym y x).
  destruct (String.compare x y) eqn:Hcmp; simpl; try done.
  by apply String.compare_eq_iff in Hcmp.
Qed.

Lemma increasing_cons (name : string) (child : TreeNode) (rest : list (string * TreeNode)) :
  increasing ((name, child) :: rest) = true →
  (∀ entry, entry ∈ rest → String.ltb name entry.1 = true)
  ∧ increasing rest = true.
Proof.
  simpl. intros [Hall Hrest]%andb_prop. split; [|done].
  intros entry Hin. rewrite forallb_forall in Hall.
  apply Hall. by apply list_elem_of_In.
Qed.

Lemma entry_named_absent (name : string) (entries : list (string * TreeNode)) :
  (∀ entry, entry ∈ entries → entry.1 ≠ name) → entry_named name entries = None.
Proof.
  induction entries as [|[name' child] entries IH]; [done|].
  intros Hall. simpl. rewrite decide_False.
  - apply IH. intros entry Hin. apply Hall. by right.
  - apply (Hall (name', child)). left.
Qed.

Lemma unionOfIterators_name (l1 l2 : list (string * TreeNode)) (child : Child) :
  child ∈ unionOfIterators l1 l2 →
  ∃ entry, (entry ∈ l1 ∨ entry ∈ l2) ∧ entry.1 = child.1.1.
Proof.
  intros (HA & HB & [[a Ha]|[b Hb]])%unionOfIterators_child.
  - exists (child.1.1, a). split; [left; by apply HA|done].
  - exists (child.1.1, b). split; [right; by apply HB|done].
Qed.

(** In listings without repeated names, kept in increasing order, the union
    pairs each name with the entry either listing has under it. *)
Lemma unionOfIterators_sorted (l1 l2 : list (string * TreeNode)) (child : Child) :
  increasing l1 = true → increasing l2 = true →
  child ∈ unionOfIterators l1 l2 →
  child.1.2 = entry_named child.1.1 l1 ∧ child.2 = entry_named child.1.1 l2.
Proof.
  funelim (unionOfIterators l1 l2); simp unionOfIterators;
    try clear Heqcall; intros Hl1 Hl2 Hin.
  - by apply elem_of_nil in Hin.
  - apply increasing_cons in Hl2 as [Habove Hl2'].
    apply elem_of_cons in Hin as [->|Hin]; simpl.
    + by rewrite decide_True.
    + destruct (H child Hl1 Hl2' Hin) as [H1 H2].
      split; [done|]. rewrite decide_False; [done|]. intros Heq.
      destruct (unionOfIterators_name _ _ _ Hin) as (entry & [Hentry|Hentry] & Hname).
      * by apply elem_of_nil in Hentry.
      * apply Habove in Hentry. rewrite Hname, <- Heq, ltb_irrefl in Hentry. done.
  - apply increasing_cons in Hl1 as [Habove Hl1'].
    apply elem_of_cons in Hin as [->|Hin]; simpl.
    + by rewrite decide_True.
    + destruct (H child Hl1' Hl2 Hin) as [H1 H2].
      split; [|done]. rewrite decide_False; [done|]. intros Heq.
      destruct (unionOfIterators_name _ _ _ Hin) as (entry & [Hentry|Hentry] & Hname).
      * apply Habove in Hentry. rewrite Hname, <- Heq, ltb_irrefl in Hentry. done.
      * by apply elem_of_nil in Hentry.
  - pose proof (increasing_cons _ _ _ Hl1) as [Habove1 Hl1'].
    pose proof (increasing_cons _ _ _ Hl2) as [Habove2 Hl2'].
    destruct (String.eqb x y) eqn:Heqb; [|destruct (String.ltb x y) eqn:Hltb].
    + apply String.eqb_eq in Heqb as ->.
      apply elem_of_cons in Hin as [->|Hin]; simpl.
      * by rewrite !decide_True.
      * destruct (H child Hl1' Hl2' Hin) as [H1' H2'].
        assert (y ≠ child.1.1) as Hne.
        { intros Heq.
          destruct (unionOfIterators_name _ _ _ Hin) as (entry & [Hentry|Hentry] & Hname).
          - apply Habove1 in Hentry. rewrite Hname, <- Heq, ltb_irrefl in Hentry. done.
          - apply Habove2 in Hentry. rewrite Hname, <- Heq, ltb_irrefl in Hentry. done. }
        by rewrite !decide_False.
    + apply String.eqb_neq in Heqb.
      apply elem_of_cons in Hin as [->|Hin]; simpl.
      * rewrite decide_True by done. rewrite decide_False by congruence.
        split; [done|]. symmetry. apply entry_named_absent.
        intros entry Hentry Heq. apply Habove2 in Hentry.
        rewrite Heq in Hentry. apply ltb_asym in Hentry. congruence.
      * destruct (H0 child Hl1' Hl2 Hin) as [H1' H2'].
        split; [|done]. rewrite decide_False; [done|]. intros Heq.
        destruct (unionOfIterators_name _ _ _ Hin) as (entry & [Hentry|Hentry] & Hname).
        -- apply Habove1 in Hentry. rewrite Hname, <- Heq, ltb_irrefl in Hentry. done.
        -- apply elem_of_cons in Hentry as [->|Hentry]; simpl in Hname.
           ++ rewrite Hname, <- Heq, ltb_irrefl in Hltb. done.
           ++ apply Habove2 in Hentry. rewrite Hname, <- Heq in Hentry.
              apply ltb_asym in Hentry. congruence.
    + pose proof (ltb_total x y Heqb Hltb) as Hgt.
      apply String.eqb_neq in Heqb.
      apply elem_of_cons in Hin as [->|Hin]; simpl.
      * rewrite decide_False by done. rewrite decide_True by done.
        split; [|done]. symmetry. apply entry_named_absent.
        intros entry Hentry Heq. apply Habove1 in Hentry.
        rewrite Heq in Hentry. congruence.
      * destruct (H1 child Hl1 Hl2' Hin) as [H1' H2'].
        split; [done|]. rewrite decide_False; [done|]. intros Heq.
        destruct (unionOfIterators_name _ _ _ Hin) as (entry & [Hentry|Hentry] & Hname).
        -- apply elem_of_cons in Hentry as [->|Hentry]; simpl in Hname.
           ++ rewrite Hname, <- Heq, ltb_irrefl in Hgt. done.
           ++ apply Habove1 in Hentry. rewrite Hname, <- Heq in Hentry.
              apply ltb_asym in Hentry. congruence.
        -- apply Habove2 in Hentry. rewrite Hname, <- Heq, ltb_irrefl in Hentry. done.
Qed.

(** Induction along the walk: a property of a path follows from the property
    of the paths below it. *)
Lemma walk_induction (P : string → option TreeNode → option TreeNode → Prop) :
  (∀ fullpath A B,
     (∀ child : Child,
        child ∈ unionOfIterators (readdir A) (readdir B) →
        P (join fullpath child.1.1) child.1.2 child.2) →
     P fullpath A B) →
  ∀ fullpath A B, P fullpath A B.
Proof.
  intros Hstep fullpath A B.
  remember (weight2 (A, B)) as n eqn:Hn.
  revert fullpath A B Hn.
  induction (lt_wf n) as [n _ IH]. intros fullpath A B ->.
  apply Hstep. intros child Hchild.
  eapply IH; [apply (child_weight A B child Hchild)|reflexivity].
Qed.

Lemma elem_of_concat {A : Type} (x : A) (ls : list (list A)) :
  x ∈ concat ls ↔ ∃ l, x ∈ l ∧ l ∈ ls.
Proof.
  induction ls as [|l ls IH]; simpl.
  - split; [by intros ?%elem_of_nil|by intros (l & _ & ?%elem_of_nil)].
  - rewrite elem_of_app, IH. split.
    + intros [Hx|(l' & Hx & Hl')]; [exists l; split; [done|left]|].
      exists l'. split; [done|by right].
    + intros (l' & Hx & [->|Hl']%elem_of_cons); [by left|]. right. eauto.
Qed.

(** The results of a walk are the answers of the callback at the visited
    paths, in the order of the visits. *)
Lemma walk_by_visits {T L : Type}
    (map : string → option TreeNode → option TreeNode → option T * list L)
    (fullpath : string) (A B : option TreeNode) :
  (walk map fullpath (A, B)).1
  = omap (λ v : Visit, (map v.1.1 v.1.2 v.2).1) (walk spy fullpath (A, B)).1.
Proof.
  revert fullpath A B. apply walk_induction. intros fullpath A B IH.
  rewrite !walk_step. unfold reduce.
  assert (Hbelow :
    concat (((λ child : Child, walk map (join fullpath child.1.1) (child.1.2, child.2))
               <$> unionOfIterators (readdir A) (readdir B)).*1)
    = omap (λ v : Visit, (map v.1.1 v.1.2 v.2).1)
        (concat (((λ child : Child, walk spy (join fullpath child.1.1) (child.1.2, child.2))
                    <$> unionOfIterators (readdir A) (readdir B)).*1))).
  { induction (unionOfIterators (readdir A) (readdir B)) as [|child children IHc];
      [done|].
    cbn [fmap list_fmap concat]. rewrite omap_app. f_equal.
    - apply IH. left.
    - apply IHc. intros child' Hin. apply IH. by right. }
  unfold fst at 1. rewrite Hbelow. clear.
  generalize (concat (((λ child : Child,
    walk spy (join fullpath child.1.1) (child.1.2, child.2))
      <$> unionOfIterators (readdir A) (readdir B)).*1)).
  intros below. simpl. by destruct (map fullpath A B).1.
Qed.

Lemma sorted_tree_Tree (o : string) (entries : list (string * TreeNode)) :
  sorted_tree (Tree o entries) = true →
  increasing entries = true ∧ ∀ entry, entry ∈ entries → sorted_tree entry.2 = true.
Proof.
  simpl. intros [Hinc Hall]%andb_prop. split; [done|].
  induction entries as [|[name child] entries IH]; [by intros ? ?%elem_of_nil|].
  apply andb_prop in Hall as [Hchild Hall].
  apply increasing_cons in Hinc as [_ Hinc].
  intros entry [->|Hin]%elem_of_cons; [done|]. by apply IH.
Qed.

Lemma sorted_readdir (entry : option TreeNode) :
  from_option sorted_tree true entry = true →
  increasing (readdir entry) = true
  ∧ ∀ child, child ∈ readdir entry → sorted_tree child.2 = true.
Proof.
  destruct entry as [[o|o entries]|]; simpl readdir;
    try (split; [done|by intros ? ?%elem_of_nil]).
  apply sorted_tree_Tree.
Qed.

(** Every visit is the entry found under some names on either side, and is
    present on one side at least.  Between trees whose listings are in
    increasing order each side of the visit is exactly what its tree has
    under these names. *)
Lemma walk_spy_sound (fullpath : string) (A B : option TreeNode) (v : Visit) :
  v ∈ (walk spy fullpath (A, B)).1 →
  ∃ names : list string,
    v.1.1 = foldl join fullpath names
    ∧ (∀ x, v.1.2 = Some x → ∃ a, A = Some a ∧ reaches a names x)
    ∧ (∀ y, v.2 = Some y → ∃ b, B = Some b ∧ reaches b names y)
    ∧ (is_Some A ∨ is_Some B → is_Some v.1.2 ∨ is_Some v.2)
    ∧ (from_option sorted_tree true A = true →
       from_option sorted_tree true B = true →
       v.1.2 = A ≫= (λ a, entry_under a names)
       ∧ v.2 = B ≫= (λ b, entry_under b names)).
Proof.
  revert fullpath A B v. apply (walk_induction (λ fullpath A B, ∀ v, _ → _)).
  intros fullpath A B IH v. rewrite walk_step. unfold reduce. simpl.
  intros [->|Hin]%elem_of_cons.
  - exists []. simpl. split_and!; [done| | |done|].
    + intros x ->. exists x. split; [done|constructor].
    + intros y ->. exists y. split; [done|constructor].
    + intros _ _. by destruct A, B.
  - apply elem_of_concat in Hin as (visited & Hv & Hvisited).
    apply list_elem_of_fmap in Hvisited as (walked & -> & Hwalked).
    apply list_elem_of_fmap in Hwalked as (child & -> & Hchild).
    destruct (IH child Hchild v Hv) as (names & Hpath & HA & HB & Hsome & Hsorted).
    destruct (unionOfIterators_child _ _ _ Hchild) as (HcA & HcB & Hcsome).
    exists (child.1.1 :: names). simpl. split_and!; [done| | |auto|].
    + intros x Hx. destruct (HA x Hx) as (a & Ha & Hreach).
      specialize (HcA a Ha). destruct A as [[o|o entries]|]; simpl in HcA;
        try by apply elem_of_nil in HcA.
      eexists. split; [done|]. by econstructor.
    + intros y Hy. destruct (HB y Hy) as (b & Hb & Hreach).
      specialize (HcB b Hb). destruct B as [[o|o entries]|]; simpl in HcB;
        try by apply elem_of_nil in HcB.
      eexists. split; [done|]. by econstructor.
    + intros [HincA HsA]%sorted_readdir [HincB HsB]%sorted_readdir.
      destruct (unionOfIterators_sorted _ _ _ HincA HincB Hchild) as [HnA HnB].
      destruct Hsorted as [HvA HvB].
      * destruct child.1.2 as [a|] eqn:Ha; [|done].
        apply (HsA (child.1.1, a)). by apply HcA.
      * destruct child.2 as [b|] eqn:Hb; [|done].
        apply (HsB (child.1.1, b)). by apply HcB.
      * rewrite HvA, HvB, HnA, HnB. by destruct A, B.
Qed.

(** The walk never hands the callback a path that is absent on both
    sides. *)
Lemma visits_one_side_present (treeA treeB : TreeNode) (v : Visit) :
  v ∈ visits treeA treeB → is_Some v.1.2 ∨ is_Some v.2.
Proof.
  intros (names & _ & _ & _ & Hsome & _)%walk_spy_sound.
  apply Hsome. left. eauto.
Qed.

(** ** The diff callback *)

(** When the callback answers with an entry, the path is not the root,
    neither side is a tree, and the entry carries the path behind a
    separator. *)
Lemma diff_map_Some (filepath : string) (A B : option TreeNode) (entry : DiffResult) :
  (diff_map filepath A B).1 = Some entry →
  filepath ≠ "."
  ∧ entry_type <$> A ≠ Some tree
  ∧ entry_type <$> B ≠ Some tree
  ∧ path entry = "/" +:+ filepath.
Proof.
  unfold diff_map. repeat case_decide; simpl; try discriminate;
    intros [= <-]; simpl; tauto.
Qed.

(** With only one side present the kind is [add] for the first side and
    [remove] for the second. *)
Lemma diff_map_one_sided (filepath : string) (o : string) :
  filepath ≠ "." →
  diff_map filepath (Some (Blob o)) None
    = (Some {| path := "/" +:+ filepath; type := add |}, [])
  ∧ diff_map filepath None (Some (Blob o))
    = (Some {| path := "/" +:+ filepath; type := remove |}, []).
Proof.
  intros Hroot. unfold diff_map. rewrite !decide_False by done. simpl.
  repeat case_decide; naive_solver.
Qed.

Lemma leaves_Tree (fullpath o : string) (entries : list (string * TreeNode)) :
  leaves fullpath (Tree o entries)
  = concat ((λ entry, leaves (join fullpath entry.1) entry.2) <$> entries).
Proof.
  simpl. induction entries as [|[name child] entries IH]; [done|].
  simpl. by rewrite IH.
Qed.

Lemma diff_map_tree (filepath o : string) (entries : list (string * TreeNode))
    (B : option TreeNode) :
  diff_map filepath (Some (Tree o entries)) B = (None, []).
Proof.
  unfold diff_map. case_decide; [done|]. rewrite decide_True; [done|by left].
Qed.

Lemma diff_map_blob_same (filepath o : string) :
  diff_map filepath (Some (Blob o)) (Some (Blob o))
  = (if decide (filepath = ".") then None
     else Some {| path := "/" +:+ filepath; type := equal |}, []).
Proof.
  unfold diff_map. case_decide; [done|]. simpl.
  repeat case_decide; naive_solver.
Qed.

(** Walking a tree against itself: one [equal] entry for each of its blobs
    below the root, and nothing is printed. *)
Lemma walk_diff_same (fullpath : string) (t : TreeNode) :
  walk diff_map fullpath (Some t, Some t)
  = ((λ q, {| path := "/" +:+ q; type := equal |})
       <$> filter (λ q, q ≠ ".") (leaves fullpath t), []).
Proof.
  revert fullpath. induction t as [o|o entries IH] using TreeNode_nested_ind;
    intros fullpath; rewrite walk_step.
  - simpl readdir. simp unionOfIterators. rewrite diff_map_blob_same.
    unfold reduce. simpl. rewrite filter_cons, filter_nil.
    by repeat case_decide.
  - simpl readdir. rewrite unionOfIterators_same, leaves_Tree, diff_map_tree.
    unfold reduce. cbn [fst snd option_list app].
    induction IH as [|[name child] entries Hchild _ IHentries]; [done|].
    cbn [fmap list_fmap concat fst snd] in *.
    rewrite Hchild, filter_app, fmap_app. cbn [fst snd].
    injection IHentries as -> ->. done.
Qed.

(** What a walk prints is what the callback prints at the visited paths. *)
Lemma walk_printed_by_visits {T L : Type}
    (map : string → option TreeNode → option TreeNode → option T * list L)
    (fullpath : string) (A B : option TreeNode) :
  (walk map fullpath (A, B)).2
  = concat ((λ v : Visit, (map v.1.1 v.1.2 v.2).2) <$> (walk spy fullpath (A, B)).1).
Proof.
  revert fullpath A B. apply walk_induction. intros fullpath A B IH.
  rewrite !walk_step. unfold reduce.
  assert (Hbelow :
    concat (((λ child : Child, walk map (join fullpath child.1.1) (child.1.2, child.2))
               <$> unionOfIterators (readdir A) (readdir B)).*2)
    = concat ((λ v : Visit, (map v.1.1 v.1.2 v.2).2)
        <$> concat (((λ child : Child, walk spy (join fullpath child.1.1) (child.1.2, child.2))
                    <$> unionOfIterators (readdir A) (readdir B)).*1))).
  { induction (unionOfIterators (readdir A) (readdir B)) as [|child children IHc];
      [done|].
    cbn [fmap list_fmap concat]. rewrite fmap_app, concat_app. f_equal.
    - apply IH. left.
    - apply IHc. intros child' Hin. apply IH. by right. }
  unfold snd at 1. rewrite Hbelow. reflexivity.
Qed.

Lemma diff_map_silent (filepath : string) (A B : option TreeNode) :
  is_Some A ∨ is_Some B → (diff_map filepath A B).2 = [].
Proof.
  intros Hsome. unfold diff_map.
  destruct (decide (filepath = ".")); [done|].
  destruct (decide (_ ∨ _)); [done|]. cbn [snd].
  rewrite decide_False; [done|]. intros [HA HB].
  destruct A, B; try discriminate. destruct Hsome as [[? [=]]|[? [=]]].
Qed.

(** A walk that starts from an entry present on one side prints nothing. *)
Lemma walk_diff_silent (fullpath : string) (A B : option TreeNode) :
  is_Some A ∨ is_Some B → (walk diff_map fullpath (A, B)).2 = [].
Proof.
  intros Hsome. rewrite walk_printed_by_visits.
  assert (Hall : ∀ v, v ∈ (walk spy fullpath (A, B)).1 → is_Some v.1.2 ∨ is_Some v.2).
  { intros v (names & _ & _ & _ & Hv & _)%walk_spy_sound. by apply Hv. }
  induction (walk spy fullpath (A, B)).1 as [|v vs IH]; [done|].
  cbn [fmap list_fmap concat]. rewrite diff_map_silent by (apply Hall; left).
  apply IH. intros v' Hin. apply Hall. by right.
Qed.

(** ** [diff] and [getChangedFiles] *)

Lemma count_filter_spec (files : list DiffResult) :
  length (filter (λ file, type file ≠ equal) files) = countChangedFiles_spec files.
Proof.
  induction files as [|file files IH]; [done|].
  rewrite filter_cons. simpl. destruct (type file); case_decide; simpl; congruence.
Qed.

(** C1, on the code: with the trees of example 6 of the specification,
    [notes/b.md] exists on the second side only and is reported as [remove];
    with the sides exchanged it exists on the first side only and is reported
    as [add].  The claim has it the other way round. *)
Theorem diff_one_sided_kinds :
  (diff "c0" "c1" (Vault.world Vault.tracked)).1
  = Returns [ {| path := "/notes/a.md"; type := modify |};
              {| path := "/notes/b.md"; type := remove |};
              {| path := "/readme.md"; type := equal |} ]
  ∧ (diff "c1" "c0" (Vault.world Vault.tracked)).1
    = Returns [ {| path := "/notes/a.md"; type := modify |};
                {| path := "/notes/b.md"; type := add |};
                {| path := "/readme.md"; type := equal |} ].
Proof. split; vm_compute; reflexivity. Qed.

(** The callback taken alone, at a path other than the root where neither
    side has an identity: it prints the anomaly with both entries and still
    answers with an entry for that path.  No walk over two trees reaches
    this (see [visits_one_side_present]). *)
Lemma diff_map_neither_side (filepath : string) (A B : option TreeNode) :
  filepath ≠ "." →
  entry_oid <$> A = None →
  entry_oid <$> B = None →
  ∃ entry : DiffResult,
    diff_map filepath A B
    = (Some entry, [Text "Something weird happened:"; Entry A; Entry B])
    ∧ path entry = "/" +:+ filepath.
Proof.
  intros Hroot HA HB. destruct A, B; try discriminate.
  unfold diff_map. rewrite decide_False by done.
  rewrite decide_False by (intros [?|?]; discriminate).
  eexists. split; reflexivity.
Qed.

Section diff_properties.
Context {Repo : Type} `{!Git Repo, !GitManager Repo}.

Lemma diff_returns (w : World Repo) (commitHash1 commitHash2 : string)
    (treeA treeB : TreeNode) :
  git_TREE commitHash1 (repo w) = Returns treeA →
  git_TREE commitHash2 (repo w) = Returns treeB →
  diff commitHash1 commitHash2 w
  = (Returns (walk diff_map "." (Some treeA, Some treeB)).1,
     after_console_log (walk diff_map "." (Some treeA, Some treeB)).2 w).
Proof.
  intros HA HB. unfold diff, mbind, M_bind, await, console_log. simpl.
  rewrite HA. simpl. rewrite HB. reflexivity.
Qed.

Lemma after_console_log_nil (w : World Repo) : after_console_log [] w = w.
Proof. destruct w. unfold after_console_log. simpl. by rewrite app_nil_r. Qed.

(** C5: [getChangedFiles] is [diff] followed by the count of the entries
    whose kind is not [equal]: it runs the one traversal [diff] runs, leaves
    the world [diff] leaves, fails where [diff] fails, and where [diff]
    returns a list it returns the count of the specification for that very
    list. *)
Theorem getChangedFiles_counts_diff (w : World Repo) (commitHash1 commitHash2 : string) :
  getChangedFiles commitHash1 commitHash2 w
  = ((outcome_map countChangedFiles_spec (diff commitHash1 commitHash2 w).1),
     (diff commitHash1 commitHash2 w).2)
  ∧ ∀ files : list DiffResult,
      (diff commitHash1 commitHash2 w).1 = Returns files →
      (getChangedFiles commitHash1 commitHash2 w).1
      = Returns (length (filter (λ file, type file ≠ equal) files)).
Proof.
  unfold getChangedFiles, mbind, M_bind.
  destruct (diff commitHash1 commitHash2 w) as [[files|error] w']; simpl.
  - unfold mret, M_ret. rewrite count_filter_spec. split; [done|].
    intros files' [= <-]. by rewrite count_filter_spec.
  - split; [done|]. intros files' [=].
Qed.

(** C7: when [ref] names a commit with tree [X], [diff ref ref] returns, and
    prints nothing; its result is one [equal] entry for the path of every
    blob of [X] (the paths below the root, which is spelled ["."] and is
    never a blob of a commit), in the order of the walk, and it holds no
    entry of kind [add], [remove] or [modify]. *)
Theorem diff_same_ref (w : World Repo) (ref : string) (X : TreeNode) :
  git_TREE ref (repo w) = Returns X →
  ∃ files : list DiffResult,
    diff ref ref w = (Returns files, w)
    ∧ files = (λ p, {| path := "/" +:+ p; type := equal |})
                <$> filter (λ p, p ≠ ".") (leaves "." X)
    ∧ (∀ p : string,
         p ∈ leaves "." X → p ≠ "." →
         {| path := "/" +:+ p; type := equal |} ∈ files)
    ∧ (∀ file : DiffResult, file ∈ files → type file = equal)
    ∧ filter (λ file, type file = add ∨ type file = remove ∨ type file = modify) files = [].
Proof.
  intros HX. eexists. split.
  { rewrite (diff_returns w ref ref X X HX HX), walk_diff_same. simpl.
    by rewrite after_console_log_nil. }
  split; [reflexivity|].
  assert (Hequal : ∀ file : DiffResult,
    file ∈ (λ q, {| path := "/" +:+ q; type := equal |})
             <$> filter (λ q, q ≠ ".") (leaves "." X) →
    type file = equal).
  { by intros file (q & -> & _)%list_elem_of_fmap. }
  split_and!.
  - intros p Hp Hroot. apply list_elem_of_fmap. exists p. split; [done|].
    by apply list_elem_of_filter.
  - exact Hequal.
  - generalize Hequal.
    generalize ((λ q, {| path := "/" +:+ q; type := equal |})
                  <$> filter (λ q, q ≠ ".") (leaves "." X)).
    intros files Hfiles. induction files as [|file files IH]; [done|].
    rewrite filter_cons_False.
    + apply IH. intros file' Hin. apply Hfiles. by right.
    + rewrite (Hfiles file) by left. intros [?|[?|?]]; discriminate.
Qed.

(** C8: when both references name commits, [diff] returns, and every entry
    of its result was produced at a visit of the walk whose path is not the
    root and at which neither side is a tree.  That path lies under a
    non-empty list of names, each side present at the visit is a blob
    found under these names in the tree of that side, and one side at least
    is present.  Between trees whose listings are in increasing order the
    sides of the visit are exactly what the two trees have under these
    names, so that the path is a directory in neither of them. *)
Theorem diff_only_leaves (w : World Repo) (commitHash1 commitHash2 : string)
    (treeA treeB : TreeNode) :
  git_TREE commitHash1 (repo w) = Returns treeA →
  git_TREE commitHash2 (repo w) = Returns treeB →
  ∃ (files : list DiffResult) (w' : World Repo),
    diff commitHash1 commitHash2 w = (Returns files, w')
    ∧ ∀ file : DiffResult,
        file ∈ files →
        ∃ (names : list string) (A B : option TreeNode),
          (path_of names, A, B) ∈ visits treeA treeB
          ∧ path file = "/" +:+ path_of names
          ∧ names ≠ []
          ∧ path_of names ≠ "."
          ∧ entry_type <$> A ≠ Some tree
          ∧ entry_type <$> B ≠ Some tree
          ∧ (∀ a, A = Some a → entry_type a = blob ∧ reaches treeA names a)
          ∧ (∀ b, B = Some b → entry_type b = blob ∧ reaches treeB names b)
          ∧ (is_Some A ∨ is_Some B)
          ∧ (sorted_tree treeA = true → sorted_tree treeB = true →
             A = entry_under treeA names ∧ B = entry_under treeB names).
Proof.
  intros HA HB. eexists _, _.
  split; [apply (diff_returns w _ _ treeA treeB HA HB)|].
  intros file Hfile. rewrite walk_by_visits in Hfile.
  apply list_elem_of_omap in Hfile as ([[fullpath A] B] & Hvisit & Hmap).
  simpl in Hmap. apply diff_map_Some in Hmap as (Hroot & HtA & HtB & Hpath).
  destruct (walk_spy_sound _ _ _ _ Hvisit)
    as (names & Hnames & HrA & HrB & Hsome & Hsorted).
  simpl in Hnames, HrA, HrB, Hsome, Hsorted.
  fold (path_of names) in Hnames. subst fullpath.
  exists names, A, B. split_and!; try done.
  - intros ->. by apply Hroot.
  - intros a ->. destruct (HrA a eq_refl) as (a' & [= <-] & Hreach).
    split; [|done]. destruct a; [done|]. by destruct HtA.
  - intros b ->. destruct (HrB b eq_refl) as (b' & [= <-] & Hreach).
    split; [|done]. destruct b; [done|]. by destruct HtB.
  - apply Hsome. left. eauto.
Qed.

End diff_properties.

Lemma diff_same_ref_witness :
  ∃ files : list DiffResult,
    diff "c0" "c0" (Vault.world Vault.tracked)
    = (Returns files, Vault.world Vault.tracked)
    ∧ {| path := "/notes/a.md"; type := equal |} ∈ files
    ∧ {| path := "/readme.md"; type := equal |} ∈ files
    ∧ filter (λ file, type file = add ∨ type file = remove ∨ type file = modify) files = [].
Proof.
  assert (HX : git_TREE "c0" (repo (Vault.world Vault.tracked)) = Returns Vault.treeA)
    by (vm_compute; reflexivity).
  destruct (diff_same_ref (Vault.world Vault.tracked) "c0" Vault.treeA HX)
    as (files & Hrun & _ & Hleaves & _ & Hnone).
  assert (Hblobs : leaves "." Vault.treeA = ["notes/a.md"; "readme.md"])
    by reflexivity.
  exists files. split_and!; [exact Hrun| | |exact Hnone].
  - apply (Hleaves "notes/a.md"); [|discriminate].
    rewrite Hblobs. left.
  - apply (Hleaves "readme.md"); [|discriminate].
    rewrite Hblobs. right. left.
Defined.

Lemma diff_only_leaves_witness :
  ∃ (files : list DiffResult) (w' : World Vault.t),
    diff "c0" "c1" (Vault.world Vault.tracked) = (Returns files, w')
    ∧ ∀ file : DiffResult,
        file ∈ files →
        ∃ names : list string,
          path file = "/" +:+ path_of names
          ∧ names ≠ []
          ∧ entry_type <$> entry_under Vault.treeA names ≠ Some tree
          ∧ entry_type <$> entry_under Vault.treeB names ≠ Some tree
          ∧ (is_Some (entry_under Vault.treeA names)
             ∨ is_Some (entry_under Vault.treeB names)).
Proof.
  assert (HA : git_TREE "c0" (repo (Vault.world Vault.tracked)) = Returns Vault.treeA)
    by (vm_compute; reflexivity).
  assert (HB : git_TREE "c1" (repo (Vault.world Vault.tracked)) = Returns Vault.treeB)
    by (vm_compute; reflexivity).
  destruct (diff_only_leaves (Vault.world Vault.tracked) "c0" "c1" _ _ HA HB)
    as (files & w' & Hrun & Hfiles).
  exists files, w'. split; [exact Hrun|].
  intros file Hfile.
  destruct (Hfiles file Hfile)
    as (names & A & B & _ & Hpath & Hnames & _ & HtA & HtB & _ & _ & Hsome & Hsorted).
  destruct (Hsorted eq_refl eq_refl) as [-> ->].
  exists names. split_and!; assumption.
Defined.


Lemma getChangedFiles_counts_diff_witness :
  (getChangedFiles "c0" "c1" (Vault.world Vault.tracked)).1 = Returns 2.
Proof.
  destruct (getChangedFiles_counts_diff (Vault.world Vault.tracked) "c0" "c1")
    as [_ Hcount].
  erewrite Hcount; [|vm_compute; reflexivity]. reflexivity.
Defined.

(** ** [getCurrentCommit] and [commitAll] *)

Section commit_properties.
Context {Repo : Type} `{!Git Repo, !GitManager Repo}.

Lemma bind_Returns {A B : Type} (m : M A) (k : A → M B) (w w' : World Repo) (a : A) :
  m w = (Returns a, w') → (m ≫= k) w = k a w'.
Proof. intros Hm. unfold mbind, M_bind. by rewrite Hm. Qed.

Lemma getCurrentCommit_Returns (w : World Repo) (commits : list ReadCommitResult) :
  git_log 1 (repo w) = Returns commits →
  getCurrentCommit w = (Returns (head commits), w).
Proof.
  intros Hlog. unfold getCurrentCommit, try_catch, mbind, M_bind, await.
  by rewrite Hlog.
Qed.

Lemma getCurrentCommit_Throws (w : World Repo) (error : Exception) :
  git_log 1 (repo w) = Throws error →
  getCurrentCommit w
  = match branchInfo false w with
    | (Returns branch, w') =>
        if decide (code error = Some "NotFoundError"
                   ∧ data_what error = Some ("refs/heads/" +:+ current branch))
        then (Returns None, w')
        else (Throws error, w')
    | (Throws error', w') => (Throws error', w')
    end.
Proof.
  intros Hlog. unfold getCurrentCommit, try_catch, mbind, M_bind, await.
  rewrite Hlog. destruct (branchInfo false w) as [[branch|error'] w']; [|done].
  by case_decide.
Qed.

(** C9: [getCurrentCommit] returns the commit [git.log] lists first, the
    most recent one reachable from [HEAD]; when [git.log] fails because the
    reference of the current branch does not exist, it returns the value
    "no commit", which is not an error; every other failure of [git.log]
    ends in an error: the one of [git.log], or the one of [branchInfo] when
    the name of the branch cannot be read. *)
Theorem getCurrentCommit_outcomes (w : World Repo) :
  (∀ commit rest,
     git_log 1 (repo w) = Returns (commit :: rest) →
     getCurrentCommit w = (Returns (Some commit), w))
  ∧ (∀ error branch w',
       git_log 1 (repo w) = Throws error →
       branchInfo false w = (Returns branch, w') →
       code error = Some "NotFoundError" →
       data_what error = Some ("refs/heads/" +:+ current branch) →
       getCurrentCommit w = (Returns None, w'))
  ∧ (∀ error branch w',
       git_log 1 (repo w) = Throws error →
       branchInfo false w = (Returns branch, w') →
       ¬ (code error = Some "NotFoundError"
          ∧ data_what error = Some ("refs/heads/" +:+ current branch)) →
       getCurrentCommit w = (Throws error, w'))
  ∧ (∀ error error' w',
       git_log 1 (repo w) = Throws error →
       branchInfo false w = (Throws error', w') →
       getCurrentCommit w = (Throws error', w')).
Proof.
  split_and!.
  - intros commit rest Hlog. by rewrite (getCurrentCommit_Returns w _ Hlog).
  - intros error branch w' Hlog Hbranch Hcode Hwhat.
    rewrite (getCurrentCommit_Throws w error Hlog), Hbranch.
    by rewrite decide_True.
  - intros error branch w' Hlog Hbranch Hother.
    rewrite (getCurrentCommit_Throws w error Hlog), Hbranch.
    by rewrite decide_False.
  - intros error error' w' Hlog Hbranch.
    by rewrite (getCurrentCommit_Throws w error Hlog), Hbranch.
Qed.

(** C10: when the steps of [commitAll] up to the second reading of the
    current commit succeed, then without a commit before the call it
    returns [undefined], and with a commit before and a commit after it
    returns the count [getChangedFiles] gives for these two commits. *)
Theorem commitAll_result (w : World Repo) (message : option string)
    (commitBefore commitAfter : option ReadCommitResult)
    (rows : list Row) (formatMessage made : string) (committed : Repo)
    (w1 w2 w3 w4 : World Repo) :
  getCurrentCommit (after_setState PluginState.commit w) = (Returns commitBefore, w1) →
  git_statusMatrix (repo w1) = Returns rows →
  forEach stage_row rows w1 = (Returns (), w2) →
  message_or_default message w2 = (Returns formatMessage, w3) →
  git_commit formatMessage (repo w3) = (Returns made, committed) →
  getCurrentCommit (with_repo committed w3) = (Returns commitAfter, w4) →
  (commitBefore = None →
   commitAll message w = (Returns None, after_lastUpdate w4))
  ∧ (∀ (before after : ReadCommitResult) (count : nat) (w5 : World Repo),
       commitBefore = Some before →
       commitAfter = Some after →
       getChangedFiles (oid before) (oid after) (after_lastUpdate w4)
       = (Returns count, w5) →
       commitAll message w = (Returns (Some count), w5)).
Proof.
  intros Hbefore Hrows Hstage Hmessage Hcommit Hafter.
  assert (Hupdate : await_update (git_commit formatMessage) w3
                    = (Returns made, with_repo committed w3)).
  { unfold await_update. by rewrite Hcommit. }
  assert (Hmatrix : await git_statusMatrix w1 = (Returns rows, w1)).
  { unfold await. by rewrite Hrows. }
  split.
  - intros ->. unfold commitAll.
    erewrite bind_Returns by reflexivity. unfold try_catch.
    erewrite bind_Returns by exact Hbefore.
    erewrite bind_Returns by exact Hmatrix.
    erewrite bind_Returns by exact Hstage.
    erewrite bind_Returns by exact Hmessage.
    erewrite bind_Returns by exact Hupdate.
    erewrite bind_Returns by exact Hafter.
    erewrite bind_Returns by reflexivity. reflexivity.
  - intros before after count w5 -> -> Hcount. unfold commitAll.
    erewrite bind_Returns by reflexivity. unfold try_catch.
    erewrite bind_Returns by exact Hbefore.
    erewrite bind_Returns by exact Hmatrix.
    erewrite bind_Returns by exact Hstage.
    erewrite bind_Returns by exact Hmessage.
    erewrite bind_Returns by exact Hupdate.
    erewrite bind_Returns by exact Hafter.
    erewrite bind_Returns by reflexivity.
    unfold fmap, M_fmap. erewrite bind_Returns by exact Hcount. reflexivity.
Qed.
End commit_properties.

Lemma getCurrentCommit_outcomes_witness :
  getCurrentCommit (Vault.world Vault.tracked)
  = (Returns (Some {| oid := "c0"; payload := "first" |}), Vault.world Vault.tracked)
  ∧ (getCurrentCommit (Vault.world Vault.fresh)).1 = Returns None
  ∧ (getCurrentCommit (Vault.world Vault.missing)).1
    = Throws (Vault.NotFoundError "HEAD")
  ∧ (getCurrentCommit (Vault.world Vault.unreadable)).1
    = Throws Vault.InternalError.
Proof.
  split_and!.
  - destruct (getCurrentCommit_outcomes (Vault.world Vault.tracked)) as (Hsome & _).
    apply (Hsome _ []). reflexivity.
  - destruct (getCurrentCommit_outcomes (Vault.world Vault.fresh)) as (_ & Hnone & _).
    erewrite Hnone; [reflexivity|reflexivity|reflexivity|reflexivity|reflexivity].
  - destruct (getCurrentCommit_outcomes (Vault.world Vault.missing))
      as (_ & _ & Hother & _).
    erewrite Hother; [reflexivity|reflexivity|reflexivity|].
    intros [_ Hwhat]. discriminate Hwhat.
  - destruct (getCurrentCommit_outcomes (Vault.world Vault.unreadable))
      as (_ & _ & _ & Hbranch).
    erewrite Hbranch; [reflexivity|reflexivity|reflexivity].
Defined.

Lemma commitAll_result_witness :
  (commitAll None (Vault.world Vault.fresh)).1 = Returns None
  ∧ (commitAll (Some "second") (Vault.world Vault.tracked)).1 = Returns (Some 2).
Proof.
  split.
  - edestruct (commitAll_result (Vault.world Vault.fresh) None) as [Hnone _];
      [reflexivity..|].
    rewrite Hnone by reflexivity. reflexivity.
  - edestruct (commitAll_result (Vault.world Vault.tracked) (Some "second"))
      as [_ Hsome]; [reflexivity..|].
    erewrite Hsome; [reflexivity|reflexivity|reflexivity|reflexivity].
Defined.

(** * Further properties of the code *)

(** ** What [diff] prints and leaves *)

Section diff_more.
Context {Repo : Type} `{!Git Repo, !GitManager Repo}.

(** X1: [diff] and [getChangedFiles] leave the world as they find it,
    whatever their outcome: they change neither the repository nor the
    plugin, and the branch of the callback that prints is never taken,
    because the walker hands it no path that is absent on both sides. *)
Theorem diff_leaves_world (w : World Repo) (commitHash1 commitHash2 : string) :
  (diff commitHash1 commitHash2 w).2 = w
  ∧ (getChangedFiles commitHash1 commitHash2 w).2 = w.
Proof.
  assert (Hdiff : (diff commitHash1 commitHash2 w).2 = w).
  { unfold diff, mbind, M_bind, await, console_log. simpl.
    destruct (git_TREE commitHash1 (repo w)) as [treeA|error]; [|done]. simpl.
    destruct (git_TREE commitHash2 (repo w)) as [treeB|error]; [|done]. simpl.
    rewrite walk_diff_silent by (left; eauto). apply after_console_log_nil. }
  split; [exact Hdiff|].
  unfold getChangedFiles, mbind, M_bind.
  destruct (diff commitHash1 commitHash2 w) as [[files|error] w']; exact Hdiff.
Qed.

(** X2: two references that name the same tree differ in no file:
    [getChangedFiles] returns 0. *)
Theorem getChangedFiles_same_tree (w : World Repo) (commitHash1 commitHash2 : string)
    (X : TreeNode) :
  git_TREE commitHash1 (repo w) = Returns X →
  git_TREE commitHash2 (repo w) = Returns X →
  getChangedFiles commitHash1 commitHash2 w = (Returns 0, w).
Proof.
  intros H1 H2. unfold getChangedFiles.
  erewrite bind_Returns; [|apply (diff_returns w _ _ X X H1 H2)].
  rewrite walk_diff_same. cbn [fst snd]. rewrite after_console_log_nil.
  unfold mret, M_ret. do 2 f_equal.
  induction (filter (λ q, q ≠ ".") (leaves "." X)) as [|q qs IH]; [done|].
  cbn [fmap list_fmap]. rewrite filter_cons_False; [exact IH|]. simpl. tauto.
Qed.
End diff_more.

Lemma getChangedFiles_same_tree_witness :
  getChangedFiles "c1" "main" (Vault.world Origin.ahead)
  = (Returns 0, Vault.world Origin.ahead).
Proof.
  apply (getChangedFiles_same_tree (Vault.world Origin.ahead) "c1" "main" Vault.treeB).
  - vm_compute. reflexivity.
  - vm_compute. reflexivity.
Defined.

(** ** Exchanging the two sides *)

Lemma unionOfIterators_swap (l1 l2 : list (string * TreeNode)) :
  unionOfIterators l2 l1 = swap_child <$> unionOfIterators l1 l2.
Proof.
  funelim (unionOfIterators l1 l2); simp unionOfIterators; try clear Heqcall.
  - done.
  - cbn. by f_equal.
  - cbn. by f_equal.
  - rewrite (String.eqb_sym y x).
    destruct (String.eqb x y) eqn:Heqb.
    + apply String.eqb_eq in Heqb as ->. cbn. by f_equal.
    + destruct (String.ltb x y) eqn:Hltb.
      * rewrite (ltb_asym x y Hltb). cbn. by f_equal.
      * rewrite (ltb_total x y Heqb Hltb). cbn. by f_equal.
Qed.

Lemma walk_spy_swap (fullpath : string) (A B : option TreeNode) :
  (walk spy fullpath (B, A)).1 = swap_child <$> (walk spy fullpath (A, B)).1.
Proof.
  revert fullpath A B. apply walk_induction. intros fullpath A B IH.
  rewrite !walk_step, unionOfIterators_swap. unfold reduce, spy at 1 3.
  cbn [fst option_list]. rewrite fmap_app. f_equal.
  induction (unionOfIterators (readdir A) (readdir B)) as [|child children IHc];
    [done|].
  cbn [fmap list_fmap concat]. rewrite fmap_app. f_equal.
  - apply (IH child). left.
  - apply IHc. intros child' Hin. apply IH. by right.
Qed.

Lemma diff_map_swap (filepath : string) (A B : option TreeNode) :
  is_Some A ∨ is_Some B →
  (diff_map filepath B A).1 = swap_sides <$> (diff_map filepath A B).1.
Proof.
  intros Hsome. unfold diff_map.
  destruct (decide (filepath = ".")); [done|].
  destruct A as [[a|a ea]|], B as [[b|b eb]|]; simpl;
    try (destruct Hsome as [[? [=]]|[? [=]]]);
    repeat case_decide; simpl; try done; naive_solver.
Qed.

(** The entries of a walk with the sides exchanged. *)
Lemma walk_diff_swap (treeA treeB : TreeNode) :
  (walk diff_map "." (Some treeB, Some treeA)).1
  = swap_sides <$> (walk diff_map "." (Some treeA, Some treeB)).1.
Proof.
  rewrite (walk_by_visits diff_map "." (Some treeB) (Some treeA)).
  rewrite (walk_by_visits diff_map "." (Some treeA) (Some treeB)).
  rewrite walk_spy_swap.
  assert (Hall : ∀ v, v ∈ (walk spy "." (Some treeA, Some treeB)).1 →
                      is_Some v.1.2 ∨ is_Some v.2).
  { intros v Hv. by apply (visits_one_side_present treeA treeB). }
  induction (walk spy "." (Some treeA, Some treeB)).1 as [|v vs IH]; [done|].
  cbn [fmap list_fmap omap list_omap].
  rewrite IH by (intros v' Hin; apply Hall; by right).
  pose proof (Hall v (list_elem_of_here _ _)) as Hv.
  destruct v as [[p a] b]. unfold swap_child. cbn [fst snd] in *.
  rewrite (diff_map_swap p a b Hv).
  by destruct (diff_map p a b).1.
Qed.

Lemma count_swap_sides (files : list DiffResult) :
  length (filter (λ file, type file ≠ equal) (swap_sides <$> files))
  = length (filter (λ file, type file ≠ equal) files).
Proof.
  induction files as [|file files IH]; [done|].
  cbn [fmap list_fmap]. rewrite !filter_cons.
  destruct file as [p []]; simpl; repeat case_decide; simpl; try done;
    by rewrite IH.
Qed.

Section swap_properties.
Context {Repo : Type} `{!Git Repo, !GitManager Repo}.

(** X3: exchanging the two commits exchanges [add] and [remove] and leaves
    everything else as it is: [diff] returns the same paths in the same
    order, with [equal] and [modify] unchanged. *)
Theorem diff_swap (w : World Repo) (commitHash1 commitHash2 : string)
    (treeA treeB : TreeNode) :
  git_TREE commitHash1 (repo w) = Returns treeA →
  git_TREE commitHash2 (repo w) = Returns treeB →
  ∃ files : list DiffResult,
    diff commitHash1 commitHash2 w = (Returns files, w)
    ∧ diff commitHash2 commitHash1 w = (Returns (swap_sides <$> files), w).
Proof.
  intros HA HB. eexists. split.
  - rewrite (diff_returns w _ _ treeA treeB HA HB).
    by rewrite walk_diff_silent, after_console_log_nil by (left; eauto).
  - rewrite (diff_returns w _ _ treeB treeA HB HA).
    rewrite walk_diff_silent, after_console_log_nil by (left; eauto).
    by rewrite walk_diff_swap.
Qed.

(** X4: the count of changed files does not depend on the order of the two
    commits. *)
Theorem getChangedFiles_symmetric (w : World Repo) (commitHash1 commitHash2 : string)
    (treeA treeB : TreeNode) :
  git_TREE commitHash1 (repo w) = Returns treeA →
  git_TREE commitHash2 (repo w) = Returns treeB →
  ∃ count : nat,
    getChangedFiles commitHash1 commitHash2 w = (Returns count, w)
    ∧ getChangedFiles commitHash2 commitHash1 w = (Returns count, w).
Proof.
  intros HA HB. eexists. unfold getChangedFiles. split.
  - erewrite bind_Returns; [|apply (diff_returns w _ _ treeA treeB HA HB)].
    rewrite walk_diff_silent, after_console_log_nil by (left; eauto).
    reflexivity.
  - erewrite bind_Returns; [|apply (diff_returns w _ _ treeB treeA HB HA)].
    rewrite walk_diff_silent, after_console_log_nil by (left; eauto).
    by rewrite walk_diff_swap, count_swap_sides.
Qed.
End swap_properties.

Lemma diff_swap_witness :
  ∃ files : list DiffResult,
    diff "c0" "c1" (Vault.world Vault.tracked) = (Returns files, Vault.world Vault.tracked)
    ∧ diff "c1" "c0" (Vault.world Vault.tracked)
      = (Returns (swap_sides <$> files), Vault.world Vault.tracked).
Proof.
  apply (diff_swap (Vault.world Vault.tracked) "c0" "c1" Vault.treeA Vault.treeB).
  - vm_compute. reflexivity.
  - vm_compute. reflexivity.
Defined.

Lemma getChangedFiles_symmetric_witness :
  ∃ count : nat,
    getChangedFiles "main" "origin/main" (Vault.world Origin.ahead)
    = (Returns count, Vault.world Origin.ahead)
    ∧ getChangedFiles "origin/main" "main" (Vault.world Origin.ahead)
      = (Returns count, Vault.world Origin.ahead).
Proof.
  apply (getChangedFiles_symmetric (Vault.world Origin.ahead) "main" "origin/main"
           Vault.treeB Vault.treeA).
  - vm_compute. reflexivity.
  - vm_compute. reflexivity.
Defined.

(** ** No difference is lost between trees in increasing order *)

Lemma entry_named_Some (name : string) (entries : list (string * TreeNode)) (x : TreeNode) :
  entry_named name entries = Some x → (name, x) ∈ entries.
Proof.
  induction entries as [|[name' child] entries IH]; [done|]. simpl.
  case_decide as Hname; [intros [= <-]; subst; left|intros Hx; right; auto].
Qed.

(** Every name of either listing is the name of a child. *)
Lemma unionOfIterators_covers (l1 l2 : list (string * TreeNode))
    (entry : string * TreeNode) :
  entry ∈ l1 ∨ entry ∈ l2 →
  ∃ child, child ∈ unionOfIterators l1 l2 ∧ child.1.1 = entry.1.
Proof.
  funelim (unionOfIterators l1 l2); simp unionOfIterators; try clear Heqcall;
    intros Hin.
  - destruct Hin as [Hin|Hin]; by apply elem_of_nil in Hin.
  - destruct Hin as [Hin|Hin]; [by apply elem_of_nil in Hin|].
    apply elem_of_cons in Hin as [->|Hin].
    + eexists. split; [left|done].
    + destruct (H entry (or_intror Hin)) as (child & Hchild & Hname).
      exists child. split; [by right|done].
  - destruct Hin as [Hin|Hin]; [|by apply elem_of_nil in Hin].
    apply elem_of_cons in Hin as [->|Hin].
    + eexists. split; [left|done].
    + destruct (H entry (or_introl Hin)) as (child & Hchild & Hname).
      exists child. split; [by right|done].
  - destruct (String.eqb x y) eqn:Heqb; [|destruct (String.ltb x y)].
    + apply String.eqb_eq in Heqb as ->.
      destruct Hin as [[->|Hin]%elem_of_cons|[->|Hin]%elem_of_cons];
        try (eexists; split; [left|done]).
      * destruct (H entry (or_introl Hin)) as (child & Hchild & Hname).
        exists child. split; [by right|done].
      * destruct (H entry (or_intror Hin)) as (child & Hchild & Hname).
        exists child. split; [by right|done].
    + destruct Hin as [[->|Hin]%elem_of_cons|Hin];
        try (eexists; split; [left|done]).
      * destruct (H0 entry (or_introl Hin)) as (child & Hchild & Hname).
        exists child. split; [by right|done].
      * destruct (H0 entry (or_intror Hin)) as (child & Hchild & Hname).
        exists child. split; [by right|done].
    + destruct Hin as [Hin|[->|Hin]%elem_of_cons];
        try (eexists; split; [left|done]).
      * destruct (H1 entry (or_introl Hin)) as (child & Hchild & Hname).
        exists child. split; [by right|done].
      * destruct (H1 entry (or_intror Hin)) as (child & Hchild & Hname).
        exists child. split; [by right|done].
Qed.

(** Between trees in increasing order the walk visits every list of names
    under which one side has an entry, with what both sides have there. *)
Lemma walk_spy_complete (names : list string) (fullpath : string)
    (A B : option TreeNode) :
  from_option sorted_tree true A = true →
  from_option sorted_tree true B = true →
  is_Some (A ≫= (λ a, entry_under a names))
  ∨ is_Some (B ≫= (λ b, entry_under b names)) →
  (foldl join fullpath names,
   A ≫= (λ a, entry_under a names),
   B ≫= (λ b, entry_under b names)) ∈ (walk spy fullpath (A, B)).1.
Proof.
  revert fullpath A B. induction names as [|name names IH];
    intros fullpath A B HsA HsB Hsome; rewrite walk_step; unfold reduce, spy at 1;
    cbn [fst option_list foldl].
  - replace (A ≫= λ a, entry_under a []) with A by (by destruct A).
    replace (B ≫= λ b, entry_under b []) with B by (by destruct B).
    left.
  - set (ca := entry_named name (readdir A)).
    set (cb := entry_named name (readdir B)).
    assert (HA : A ≫= (λ a, entry_under a (name :: names))
                 = ca ≫= (λ a, entry_under a names)) by (by destruct A).
    assert (HB : B ≫= (λ b, entry_under b (name :: names))
                 = cb ≫= (λ b, entry_under b names)) by (by destruct B).
    rewrite HA, HB in *. clear HA HB.
    destruct (sorted_readdir A HsA) as [HincA HchildrenA].
    destruct (sorted_readdir B HsB) as [HincB HchildrenB].
    assert (Hchild : (name, ca, cb) ∈ unionOfIterators (readdir A) (readdir B)).
    { assert (∃ entry, (entry ∈ readdir A ∨ entry ∈ readdir B) ∧ entry.1 = name)
        as (entry & Hentry & Hname).
      { destruct Hsome as [[x Hx]|[x Hx]].
        - destruct ca as [a|] eqn:Hca; [|done].
          exists (name, a). split; [left; by apply entry_named_Some|done].
        - destruct cb as [b|] eqn:Hcb; [|done].
          exists (name, b). split; [right; by apply entry_named_Some|done]. }
      destruct (unionOfIterators_covers _ _ entry Hentry) as (child & Hchild & Hcname).
      destruct (unionOfIterators_sorted _ _ child HincA HincB Hchild) as [H1 H2].
      destruct child as [[n a] b]. simpl in *. subst n. rewrite Hname in *.
      by subst a b. }
    right. apply elem_of_concat. eexists. split.
    + apply (IH (join fullpath name) ca cb); [| |done].
      * destruct ca as [a|] eqn:Hca; [|done].
        apply (HchildrenA (name, a)). by apply entry_named_Some.
      * destruct cb as [b|] eqn:Hcb; [|done].
        apply (HchildrenB (name, b)). by apply entry_named_Some.
    + apply list_elem_of_fmap. eexists. split; [reflexivity|].
      apply list_elem_of_fmap. exists (name, ca, cb). split; [done|exact Hchild].
Qed.

Section complete_properties.
Context {Repo : Type} `{!Git Repo, !GitManager Repo}.

(** X5: between two commits whose trees are in increasing order no
    difference is lost.  Under every list of names where one tree has an
    entry and neither has a directory, [diff] reports the path: with kind
    [add] or [remove] when only one side has it, and otherwise with
    [modify] or [equal] as the two identities differ or agree. *)
Theorem diff_complete (w : World Repo) (commitHash1 commitHash2 : string)
    (treeA treeB : TreeNode) (names : list string) :
  git_TREE commitHash1 (repo w) = Returns treeA →
  git_TREE commitHash2 (repo w) = Returns treeB →
  sorted_tree treeA = true →
  sorted_tree treeB = true →
  path_of names ≠ "." →
  entry_type <$> entry_under treeA names ≠ Some tree →
  entry_type <$> entry_under treeB names ≠ Some tree →
  is_Some (entry_under treeA names) ∨ is_Some (entry_under treeB names) →
  ∃ (files : list DiffResult) (file : DiffResult),
    diff commitHash1 commitHash2 w = (Returns files, w)
    ∧ file ∈ files
    ∧ path file = "/" +:+ path_of names
    ∧ (entry_under treeA names = None ∨ entry_under treeB names = None →
       type file = add ∨ type file = remove)
    ∧ (∀ a b, entry_under treeA names = Some a → entry_under treeB names = Some b →
         entry_oid a ≠ entry_oid b → type file = modify)
    ∧ (∀ a b, entry_under treeA names = Some a → entry_under treeB names = Some b →
         entry_oid a = entry_oid b → type file = equal).
Proof.
  intros HA HB HsA HsB Hroot HtA HtB Hsome.
  pose proof (walk_spy_complete names "." (Some treeA) (Some treeB) HsA HsB Hsome)
    as Hvisit.
  cbn [mbind option_bind] in Hvisit. fold (path_of names) in Hvisit.
  destruct (diff_map (path_of names) (entry_under treeA names)
              (entry_under treeB names)).1 as [file|] eqn:Hfile.
  2: { unfold diff_map in Hfile. rewrite decide_False in Hfile by done.
       rewrite decide_False in Hfile by tauto. discriminate. }
  exists (walk diff_map "." (Some treeA, Some treeB)).1, file. split_and!.
  - rewrite (diff_returns w _ _ treeA treeB HA HB).
    by rewrite walk_diff_silent, after_console_log_nil by (left; eauto).
  - rewrite walk_by_visits. apply list_elem_of_omap.
    eexists. split; [exact Hvisit|exact Hfile].
  - by apply diff_map_Some in Hfile as (_ & _ & _ & ?).
  - intros Hone. unfold diff_map in Hfile.
    rewrite decide_False in Hfile by done.
    rewrite decide_False in Hfile by tauto.
    injection Hfile as <-. simpl.
    destruct Hone as [Hone|Hone]; rewrite Hone; simpl;
      repeat case_decide; tauto.
  - intros a b Ha Hb Hne. rewrite Ha, Hb in *. unfold diff_map in Hfile.
    rewrite decide_False in Hfile by done.
    rewrite decide_False in Hfile by tauto.
    injection Hfile as <-. simpl. repeat case_decide; try done; congruence.
  - intros a b Ha Hb Heq. rewrite Ha, Hb in *. unfold diff_map in Hfile.
    rewrite decide_False in Hfile by done.
    rewrite decide_False in Hfile by tauto.
    injection Hfile as <-. simpl. repeat case_decide; try done; congruence.
Qed.
End complete_properties.

Lemma diff_complete_witness :
  ∃ (files : list DiffResult) (file : DiffResult),
    diff "c0" "c1" (Vault.world Vault.tracked) = (Returns files, Vault.world Vault.tracked)
    ∧ file ∈ files
    ∧ path file = "/notes/b.md"
    ∧ (type file = add ∨ type file = remove).
Proof.
  destruct (diff_complete (Vault.world Vault.tracked) "c0" "c1"
              Vault.treeA Vault.treeB ["notes"; "b.md"])
    as (files & file & Hrun & Hin & Hpath & Hone & _);
    try (vm_compute; reflexivity); try (vm_compute; discriminate).
  - right. vm_compute. eauto.
  - exists files, file. split_and!; [exact Hrun|exact Hin|exact Hpath|].
    apply Hone. left. reflexivity.
Defined.

(** ** Which rows have a code *)

Lemma template_inj (n m : nat) : template n = template m → n = m.
Proof.
  unfold template. intros Heq.
  assert (Some (Nat.to_uint n) = Some (Nat.to_uint m)) as [= Huint].
  { rewrite <- !NilEmpty.usu. by rewrite Heq. }
  rewrite <- (DecimalNat.Unsigned.of_to n), <- (DecimalNat.Unsigned.of_to m).
  by rewrite Huint.
Qed.

Lemma template_nonempty (n : nat) : template n ≠ "".
Proof.
  intros Heq. assert (n = 0) as ->.
  { assert (Some (Nat.to_uint n) = Some Decimal.Nil) as [= Huint].
    { rewrite <- NilEmpty.usu. fold (template n). by rewrite Heq. }
    rewrite <- (DecimalNat.Unsigned.of_to n). by rewrite Huint. }
  discriminate Heq.
Qed.

Lemma row_key_digits (row : Row) (c1 c2 c3 : ascii) :
  row_key row = String c1 (String c2 (String c3 "")) →
  template (HEAD row) = String c1 ""
  ∧ template (WORKDIR row) = String c2 ""
  ∧ template (STAGE row) = String c3 "".
Proof.
  unfold row_key.
  pose proof (template_nonempty (HEAD row)) as Hh.
  pose proof (template_nonempty (WORKDIR row)) as Hw.
  pose proof (template_nonempty (STAGE row)) as Hs.
  destruct (template (HEAD row)) as [|a ra]; [done|].
  destruct (template (WORKDIR row)) as [|b rb]; [done|].
  destruct (template (STAGE row)) as [|c rc]; [done|].
  simpl. intros [= -> Hrest]. 
  destruct ra as [|? ra]; simpl in Hrest.
  - injection Hrest as -> Hrest. destruct rb as [|? rb]; simpl in Hrest.
    + by injection Hrest as -> ->.
    + injection Hrest as -> Hrest. destruct rb; discriminate.
  - injection Hrest as -> Hrest. destruct ra as [|? ra]; simpl in Hrest.
    + injection Hrest as -> Hrest. destruct rb; discriminate.
    + injection Hrest as -> Hrest. destruct ra; discriminate.
Qed.

(** X6: a row has a code exactly when its three numbers are one of the
    fourteen triples of the table, and the code is then the one of that
    triple.  No other numbers, also none with several digits, spell a key of
    the table. *)
Theorem getFileStatusResult_triples (row : Row) (code : string) :
  index (getFileStatusResult row) = Some code
  ↔ (HEAD row, WORKDIR row, STAGE row, code) ∈
      [(0, 0, 0, ""); (0, 0, 3, "AD"); (0, 2, 0, "??"); (0, 2, 2, "A");
       (0, 2, 3, "AM"); (1, 0, 0, "D "); (1, 0, 1, " D"); (1, 0, 3, "MD");
       (1, 1, 0, "D ??"); (1, 1, 1, ""); (1, 2, 0, "D ??"); (1, 2, 1, " M");
       (1, 2, 2, "M "); (1, 2, 3, "MM")].
Proof.
  split.
  - intros Hcode. apply indexes_lookup_listed in Hcode.
    repeat (apply elem_of_cons in Hcode as [Hcode|Hcode]);
      [..|by apply elem_of_nil in Hcode];
      injection Hcode as Hkey ->;
      apply row_key_digits in Hkey as (Hh & Hw & Hs);
      first [apply (template_inj _ 0) in Hh|apply (template_inj _ 1) in Hh];
      first [apply (template_inj _ 0) in Hw|apply (template_inj _ 1) in Hw
            |apply (template_inj _ 2) in Hw];
      first [apply (template_inj _ 0) in Hs|apply (template_inj _ 1) in Hs
            |apply (template_inj _ 2) in Hs|apply (template_inj _ 3) in Hs];
      rewrite Hh, Hw, Hs; set_solver.
  - intros Hin. destruct row as [file h w s]. simpl in Hin.
    repeat (apply elem_of_cons in Hin as [Hin|Hin]);
      [..|by apply elem_of_nil in Hin];
      injection Hin as -> -> -> ->; vm_compute; reflexivity.
Qed.

Lemma getFileStatusResult_triples_witness :
  (1, 2, 3, "MM") ∈
    [(0, 0, 0, ""); (0, 0, 3, "AD"); (0, 2, 0, "??"); (0, 2, 2, "A");
     (0, 2, 3, "AM"); (1, 0, 0, "D "); (1, 0, 1, " D"); (1, 0, 3, "MD");
     (1, 1, 0, "D ??"); (1, 1, 1, ""); (1, 2, 0, "D ??"); (1, 2, 1, " M");
     (1, 2, 2, "M "); (1, 2, 3, "MM")].
Proof.
  apply (getFileStatusResult_triples
           {| FILE := "notes/a.md"; HEAD := 1; WORKDIR := 2; STAGE := 3 |} "MM").
  vm_compute. reflexivity.
Defined.

(** ** What the methods leave behind *)

Section effects.
Context {Repo : Type} `{!Git Repo, !GitManager Repo}.

(** X7: [status] only reads the repository: whatever its outcome the
    repository, the console and [lastUpdate] are as before and the state of
    the plugin is [status].  It fails exactly when the status matrix cannot
    be read, with the error of the library, which it displays once; when it
    returns nothing is displayed. *)
Theorem status_effects (w : World Repo) :
  repo (status w).2 = repo w
  ∧ console (status w).2 = console w
  ∧ clock (status w).2 = clock w
  ∧ lastUpdate (plugin (status w).2) = lastUpdate (plugin w)
  ∧ state (plugin (status w).2) = PluginState.status
  ∧ match (status w).1 with
    | Returns _ =>
        (∃ rows, git_statusMatrix (repo w) = Returns rows)
        ∧ displayed (plugin (status w).2) = displayed (plugin w)
    | Throws error =>
        git_statusMatrix (repo w) = Throws error
        ∧ displayed (plugin (status w).2) = displayed (plugin w) ++ [error]
    end.
Proof.
  unfold status, mbind, M_bind, try_catch, await, setState, displayError, throw.
  simpl. destruct (git_statusMatrix (repo w)) as [rows|error]; simpl;
    split_and!; eauto.
Qed.
End effects.

(** ** [branchInfo] *)

Lemma substring_all (s : string) : String.substring 0 (String.length s) s = s.
Proof. induction s as [|c s IH]; [done|]. simpl. by rewrite IH. Qed.

(** Behind the first ["refs/heads"] of a merge reference: what follows it,
    up to the next ["refs/heads"] if there is one. *)
Lemma split_1_merge (suffix : string) :
  split_1 "refs/heads" ("refs/heads" +:+ suffix)
  = Some match String.index 0 "refs/heads" suffix with
         | None => suffix
         | Some n => String.substring 0 n suffix
         end.
Proof.
  unfold split_1.
  assert (Hfirst : String.index 0 "refs/heads" ("refs/heads" +:+ suffix) = Some 0).
  { simpl. by destruct suffix. }
  rewrite Hfirst.
  assert (Hrest : String.substring (0 + String.length "refs/heads")
                    (String.length ("refs/heads" +:+ suffix)
                     - (0 + String.length "refs/heads"))
                    ("refs/heads" +:+ suffix) = suffix).
  { simpl. change ("" +:+ suffix) with suffix. rewrite Nat.sub_0_r.
    apply substring_all. }
  rewrite Hrest. by destruct (String.index 0 "refs/heads" suffix).
Qed.

Section branchInfo_properties.
Context {Repo : Type} `{!Git Repo, !GitManager Repo}.

(** [branchInfo] when its reads succeed. *)
Lemma branchInfo_reads (w : World Repo) (listRemoteBranches : bool)
    (branch remote merge : option string) (local : list string) :
  git_currentBranch (repo w) = Returns branch →
  git_listBranches None (repo w) = Returns local →
  git_getConfig ("branch." +:+ default "" branch +:+ ".remote") (repo w) = Returns remote →
  git_getConfig ("branch." +:+ default "" branch +:+ ".merge") (repo w) = Returns merge →
  branchInfo listRemoteBranches w
  = if listRemoteBranches then
      match git_listBranches (Some (default "origin" remote)) (repo w) with
      | Returns listed =>
          (Returns {| current := default "" branch;
                      tracking := default "origin" remote
                                  +:+ default "" (merge ≫= split_1 "refs/heads");
                      branches := local;
                      remoteBranches :=
                        Some ((λ e, default "origin" remote +:+ "/" +:+ e)
                                <$> filter (λ e, e ≠ "HEAD") listed) |}, w)
      | Throws error => (Throws error, after_displayError error w)
      end
    else
      (Returns {| current := default "" branch;
                  tracking := default "origin" remote
                              +:+ default "" (merge ≫= split_1 "refs/heads");
                  branches := local;
                  remoteBranches := None |}, w).
Proof.
  intros Hbranch Hlocal Hremote Hmerge.
  unfold branchInfo, try_catch, mbind, M_bind, fmap, M_fmap, mbind, M_bind, await.
  rewrite Hbranch. cbn [mret M_ret]. rewrite Hlocal, Hremote. cbn [mret M_ret].
  rewrite Hmerge. destruct listRemoteBranches; [|reflexivity].
  by destruct (git_listBranches (Some (default "origin" remote)) (repo w)).
Qed.

(** X8: for a branch whose merge reference is [refs/heads] followed by
    [suffix], [tracking] is the remote followed by a piece of [suffix]: all
    of it when [refs/heads] does not occur in it again (["/main"] gives
    [origin/main]), and what stands before the next [refs/heads] when it
    does (["/a/refs/heads/b"] gives [origin/a/]).  The remote is [origin]
    unless the configuration names one; [current] is the branch and,
    without [listRemoteBranches], no remote branch is listed and the world
    is left as it was. *)
Theorem branchInfo_tracking (w : World Repo)
    (branch remote : option string) (suffix : string) (local : list string) :
  git_currentBranch (repo w) = Returns branch →
  git_listBranches None (repo w) = Returns local →
  git_getConfig ("branch." +:+ default "" branch +:+ ".remote") (repo w) = Returns remote →
  git_getConfig ("branch." +:+ default "" branch +:+ ".merge") (repo w)
  = Returns (Some ("refs/heads" +:+ suffix)) →
  ∃ piece : string,
    branchInfo false w
    = (Returns {| current := default "" branch;
                  tracking := default "origin" remote +:+ piece;
                  branches := local;
                  remoteBranches := None |}, w)
    ∧ (String.index 0 "refs/heads" suffix = None → piece = suffix)
    ∧ (∀ n : nat,
         String.index 0 "refs/heads" suffix = Some n →
         piece = String.substring 0 n suffix).
Proof.
  intros Hbranch Hlocal Hremote Hmerge.
  rewrite (branchInfo_reads w false _ _ _ _ Hbranch Hlocal Hremote Hmerge).
  cbn [mbind option_bind]. rewrite (split_1_merge suffix).
  eexists. split; [reflexivity|].
  split; [by intros ->|by intros n ->].
Qed.

(** X9: for a branch without a merge reference, or with one that does not
    contain [refs/heads], [tracking] is the bare name of the remote:
    nothing follows it, not even a separator. *)
Theorem branchInfo_without_upstream (w : World Repo)
    (branch remote merge : option string) (local : list string) :
  git_currentBranch (repo w) = Returns branch →
  git_listBranches None (repo w) = Returns local →
  git_getConfig ("branch." +:+ default "" branch +:+ ".remote") (repo w) = Returns remote →
  git_getConfig ("branch." +:+ default "" branch +:+ ".merge") (repo w) = Returns merge →
  (∀ reference, merge = Some reference → String.index 0 "refs/heads" reference = None) →
  ∃ info : BranchInfo,
    branchInfo false w = (Returns info, w)
    ∧ tracking info = default "origin" remote.
Proof.
  intros Hbranch Hlocal Hremote Hmerge Hnone.
  rewrite (branchInfo_reads w false _ _ _ _ Hbranch Hlocal Hremote Hmerge).
  eexists. split; [reflexivity|]. cbn [tracking].
  assert (merge ≫= split_1 "refs/heads" = None) as ->.
  { destruct merge as [reference|]; [|done]. cbn. unfold split_1.
    by rewrite (Hnone reference eq_refl). }
  cbn [default from_option]. clear.
  induction (default "origin" remote) as [|c s IH]; [done|].
  change (String c s +:+ "") with (String c (s +:+ "")). by rewrite IH.
Qed.

(** X10: with [listRemoteBranches], the branches of the remote are listed
    with the remote and a separator in front, except for [HEAD]: the
    remote's own [HEAD] is never among them and every other listed branch
    is. *)
Theorem branchInfo_remoteBranches (w : World Repo)
    (branch remote merge : option string) (local listed : list string) :
  git_currentBranch (repo w) = Returns branch →
  git_listBranches None (repo w) = Returns local →
  git_getConfig ("branch." +:+ default "" branch +:+ ".remote") (repo w) = Returns remote →
  git_getConfig ("branch." +:+ default "" branch +:+ ".merge") (repo w) = Returns merge →
  git_listBranches (Some (default "origin" remote)) (repo w) = Returns listed →
  ∃ (info : BranchInfo) (named : list string),
    branchInfo true w = (Returns info, w)
    ∧ remoteBranches info = Some named
    ∧ ((default "origin" remote +:+ "/HEAD") ∉ named)
    ∧ ∀ e : string,
        (default "origin" remote +:+ "/" +:+ e) ∈ named ↔ e ∈ listed ∧ e ≠ "HEAD".
Proof.
  intros Hbranch Hlocal Hremote Hmerge Hlisted.
  rewrite (branchInfo_reads w true _ _ _ _ Hbranch Hlocal Hremote Hmerge), Hlisted.
  eexists _, _. split; [reflexivity|]. split; [reflexivity|].
  assert (Hnamed : ∀ e : string,
    (default "origin" remote +:+ "/" +:+ e)
      ∈ (λ e, default "origin" remote +:+ "/" +:+ e) <$> filter (λ e, e ≠ "HEAD") listed
    ↔ e ∈ listed ∧ e ≠ "HEAD").
  { intros e. rewrite list_elem_of_fmap. split.
    - intros (e' & Heq & Hin). apply list_elem_of_filter in Hin as [Hne Hin].
      apply (inj (String.append _)) in Heq. apply (inj (String.append _)) in Heq.
      by subst e'.
    - intros [Hin Hne]. exists e. split; [done|]. by apply list_elem_of_filter. }
  split; [|exact Hnamed].
  intros Hin. apply (Hnamed "HEAD") in Hin as [_ Hne]. done.
Qed.
End branchInfo_properties.

Lemma branchInfo_tracking_witness :
  branchInfo false (Vault.world Origin.ahead)
  = (Returns {| current := "main"; tracking := "origin/main";
                branches := ["main"]; remoteBranches := None |},
     Vault.world Origin.ahead)
  ∧ branchInfo false (Vault.world Vault.nested)
    = (Returns {| current := "a/refs/heads/b"; tracking := "origin/a/";
                  branches := ["a/refs/heads/b"]; remoteBranches := None |},
       Vault.world Vault.nested).
Proof.
  split.
  - destruct (branchInfo_tracking (Vault.world Origin.ahead)
                (Some "main") (Some "origin") "/main" ["main"])
      as (piece & Hrun & Hall & _);
      [reflexivity|reflexivity|vm_compute; reflexivity|vm_compute; reflexivity|].
    rewrite Hrun, (Hall eq_refl). reflexivity.
  - destruct (branchInfo_tracking (Vault.world Vault.nested)
                (Some "a/refs/heads/b") None "/a/refs/heads/b" ["a/refs/heads/b"])
      as (piece & Hrun & _ & Hcut);
      [reflexivity|reflexivity|vm_compute; reflexivity|vm_compute; reflexivity|].
    rewrite Hrun, (Hcut 3 eq_refl). reflexivity.
Defined.

Lemma branchInfo_without_upstream_witness :
  ∃ info : BranchInfo,
    branchInfo false (Vault.world Vault.fresh) = (Returns info, Vault.world Vault.fresh)
    ∧ tracking info = "origin".
Proof.
  apply (branchInfo_without_upstream (Vault.world Vault.fresh)
           (Some "main") None None ["main"]).
  - reflexivity.
  - reflexivity.
  - vm_compute. reflexivity.
  - vm_compute. reflexivity.
  - intros reference [=].
Defined.

Lemma branchInfo_remoteBranches_witness :
  ∃ (info : BranchInfo) (named : list string),
    branchInfo true (Vault.world Origin.ahead) = (Returns info, Vault.world Origin.ahead)
    ∧ remoteBranches info = Some named
    ∧ ("origin/HEAD" ∉ named)
    ∧ "origin/main" ∈ named.
Proof.
  destruct (branchInfo_remoteBranches (Vault.world Origin.ahead)
              (Some "main") (Some "origin") (Some "refs/heads/main")
              ["main"] ["HEAD"; "main"])
    as (info & named & Hrun & Hnamed & Hhead & Hothers);
    try (vm_compute; reflexivity).
  exists info, named. split_and!; [exact Hrun|exact Hnamed|exact Hhead|].
  apply (Hothers "main"). split; [right; left|discriminate].
Defined.

(** ** Reading leaves no trace *)

Section reading.
Context {Repo : Type} `{!Git Repo, !GitManager Repo}.

Lemma diff_world (w : World Repo) (commitHash1 commitHash2 : string) :
  (diff commitHash1 commitHash2 w).2 = w.
Proof.
  unfold diff, mbind, M_bind, await, console_log. simpl.
  destruct (git_TREE commitHash1 (repo w)) as [treeA|error]; [|done]. simpl.
  destruct (git_TREE commitHash2 (repo w)) as [treeB|error]; [|done]. simpl.
  rewrite walk_diff_silent by (left; eauto). apply after_console_log_nil.
Qed.

Lemma getChangedFiles_world (w : World Repo) (commitHash1 commitHash2 : string) :
  (getChangedFiles commitHash1 commitHash2 w).2 = w.
Proof.
  pose proof (diff_world w commitHash1 commitHash2) as Hdiff.
  unfold getChangedFiles, mbind, M_bind.
  by destruct (diff commitHash1 commitHash2 w) as [[files|error] w'].
Qed.

(** [getChangedFiles] looks at the repository only. *)
Lemma getChangedFiles_repo (w w' : World Repo) (commitHash1 commitHash2 : string) :
  repo w = repo w' →
  (getChangedFiles commitHash1 commitHash2 w).1
  = (getChangedFiles commitHash1 commitHash2 w').1.
Proof.
  intros Hrepo.
  unfold getChangedFiles, diff, mbind, M_bind, await, console_log. simpl.
  rewrite Hrepo.
  destruct (git_TREE commitHash1 (repo w')) as [treeA|error]; [|done]. simpl.
  by destruct (git_TREE commitHash2 (repo w')) as [treeB|error].
Qed.

(** [branchInfo] changes the world only by displaying the error it
    throws. *)
Lemma branchInfo_world (w : World Repo) (listRemoteBranches : bool) :
  (branchInfo listRemoteBranches w).2
  = match (branchInfo listRemoteBranches w).1 with
    | Returns _ => w
    | Throws error => after_displayError error w
    end.
Proof.
  unfold branchInfo, try_catch, mbind, M_bind, fmap, M_fmap, mbind, M_bind, await,
    displayError, throw.
  destruct (git_currentBranch (repo w)) as [branch|error]; [|done]. cbn [mret M_ret].
  destruct (git_listBranches None (repo w)) as [local|error]; [|done].
  destruct (git_getConfig _ (repo w)) as [remote|error]; [|done]. cbn [mret M_ret].
  destruct (git_getConfig _ (repo w)) as [merge|error]; [|done].
  destruct listRemoteBranches; [|done].
  by destruct (git_listBranches (Some _) (repo w)) as [listed|error].
Qed.

Lemma getCurrentCommit_world (w : World Repo) :
  match (getCurrentCommit w).1 with
  | Returns _ => (getCurrentCommit w).2 = w
  | Throws error =>
      (getCurrentCommit w).2 = w
      ∨ ((getCurrentCommit w).2 = after_displayError error w
         ∧ (branchInfo false w).1 = Throws error)
  end.
Proof.
  pose proof (branchInfo_world w false) as Hworld.
  unfold getCurrentCommit, try_catch, mbind, M_bind, await, throw.
  destruct (git_log 1 (repo w)) as [commits|error]; [done|].
  destruct (branchInfo false w) as [[info|error'] w']; simpl in *.
  - subst w'. case_decide; simpl; auto.
  - subst w'. auto.
Qed.

Lemma getCurrentCommit_Returns_world (w w' : World Repo) (c : option ReadCommitResult) :
  getCurrentCommit w = (Returns c, w') → w' = w.
Proof.
  intros Hrun. pose proof (getCurrentCommit_world w) as Heff.
  rewrite Hrun in Heff. done.
Qed.

(** X11: [getCurrentCommit] and [branchInfo] leave the world exactly as it
    was whenever they return; in particular finding "no commit" displays
    nothing.  When [getCurrentCommit] throws, the world is as it was, or
    differs by the display of the thrown error, which is then the one
    [branchInfo] failed with; [branchInfo] displays every error it
    throws. *)
Theorem reading_effects (w : World Repo) (listRemoteBranches : bool) :
  match (getCurrentCommit w).1 with
  | Returns _ => (getCurrentCommit w).2 = w
  | Throws error =>
      (getCurrentCommit w).2 = w
      ∨ ((getCurrentCommit w).2 = after_displayError error w
         ∧ (branchInfo false w).1 = Throws error)
  end
  ∧ (branchInfo listRemoteBranches w).2
    = match (branchInfo listRemoteBranches w).1 with
      | Returns _ => w
      | Throws error => after_displayError error w
      end.
Proof. split; [apply getCurrentCommit_world|apply branchInfo_world]. Qed.
End reading.

(** ** The methods that display their errors *)

Section displaying.
Context {Repo : Type} `{!Git Repo, !GitManager Repo, !GitRemote Repo, !Obsidian Repo}.

Lemma bind_inv_Returns {A B : Type} (m : M A) (k : A → M B) (w w' : World Repo) (b : B) :
  (m ≫= k) w = (Returns b, w') →
  ∃ a w1, m w = (Returns a, w1) ∧ k a w1 = (Returns b, w').
Proof.
  unfold mbind, M_bind. destruct (m w) as [[a|error] w1]; [eauto|discriminate].
Qed.

Lemma rethrow_Returns {A : Type} (body : M A) (w w' : World Repo) (a : A) :
  try_catch body (λ error, displayError error;; throw error) w = (Returns a, w') →
  body w = (Returns a, w').
Proof.
  unfold try_catch. destruct (body w) as [[a'|error] w1]; [done|discriminate].
Qed.

Lemma rethrow_Throws {A : Type} (body : M A) (w w' : World Repo) (error : Exception) :
  try_catch body (λ error, displayError error;; throw error) w = (Throws error, w') →
  ∃ w1, body w = (Throws error, w1) ∧ w' = after_displayError error w1.
Proof.
  unfold try_catch. destruct (body w) as [[a'|error'] w1]; [discriminate|].
  intros [= -> <-]. eauto.
Qed.

Lemma after_displayError_last (w : World Repo) (error : Exception) :
  last (displayed (plugin (after_displayError error w))) = Some error.
Proof. simpl. apply last_snoc. Qed.

(** X12: [status], [branchInfo], [commitAll], [pull], [push] and [fetch]
    display every error they throw: when one of them fails, the error it
    throws is the last one handed to [displayError]. *)
Theorem thrown_errors_are_displayed (w w' : World Repo) (error : Exception) :
  (status w = (Throws error, w') ∨
   (∃ listRemoteBranches, branchInfo listRemoteBranches w = (Throws error, w')) ∨
   (∃ message, commitAll message w = (Throws error, w')) ∨
   pull w = (Throws error, w') ∨
   push w = (Throws error, w') ∨
   fetch w = (Throws error, w')) →
  last (displayed (plugin w')) = Some error.
Proof.
  intros [Hrun|[[b Hrun]|[[message Hrun]|[Hrun|[Hrun|Hrun]]]]].
  - apply rethrow_Throws in Hrun as (w1 & _ & ->). apply after_displayError_last.
  - apply rethrow_Throws in Hrun as (w1 & _ & ->). apply after_displayError_last.
  - apply rethrow_Throws in Hrun as (w1 & _ & ->). apply after_displayError_last.
  - apply rethrow_Throws in Hrun as (w1 & _ & ->). apply after_displayError_last.
  - apply rethrow_Throws in Hrun as (w1 & _ & ->). apply after_displayError_last.
  - unfold fetch in Hrun. case_decide; [discriminate|].
    apply rethrow_Throws in Hrun as (w1 & _ & ->). apply after_displayError_last.
Qed.
End displaying.

Lemma thrown_errors_are_displayed_witness :
  ∃ w' : World Vault.t,
    push (Vault.world Vault.tracked) = (Throws (Vault.NotFoundError "main"), w')
    ∧ last (displayed (plugin w')) = Some (Vault.NotFoundError "main").
Proof.
  eexists. split; [vm_compute; reflexivity|].
  eapply (thrown_errors_are_displayed (Vault.world Vault.tracked)).
  right. right. right. right. left. vm_compute. reflexivity.
Defined.

(** ** [checkRequirements] *)

Section requirements.
Context {Repo : Type} `{!Git Repo, !GitManager Repo, !GitRemote Repo, !Obsidian Repo}.

(** X13: [checkRequirements] answers [missing-repo] exactly on the error of
    [git.log] that says [HEAD] was not found.  Every other outcome of
    [git.log], a list of commits or any other error, is passed over: the
    answer is then [valid] when the name, the e-mail address and the remote
    URL are all configured and non-empty, and [wrong-settings] otherwise.
    Nothing is displayed and the world is left as it was. *)
Theorem checkRequirements_answers (w : World Repo) :
  (∀ error,
     git_log 1 (repo w) = Throws error →
     code error = Some "NotFoundError" →
     data_what error = Some "HEAD" →
     checkRequirements w = (Returns missing_repo, w))
  ∧ (∀ user email remoteURL,
       (∀ error, git_log 1 (repo w) = Throws error →
                 ¬ (code error = Some "NotFoundError" ∧ data_what error = Some "HEAD")) →
       git_getConfig "user.name" (repo w) = Returns user →
       git_getConfig "user.email" (repo w) = Returns email →
       git_getConfig "remote.origin.url" (repo w) = Returns remoteURL →
       (truthy user ∧ truthy email ∧ truthy remoteURL →
        checkRequirements w = (Returns valid, w))
       ∧ (¬ (truthy user ∧ truthy email ∧ truthy remoteURL) →
          checkRequirements w = (Returns wrong_settings, w))).
Proof.
  split.
  - intros error Hlog Hcode Hwhat.
    unfold checkRequirements, checkRequirements_log, try_catch, mbind, M_bind, await.
    rewrite Hlog. by rewrite decide_True.
  - intros user email remoteURL Hlog Huser Hemail Hurl.
    assert (Hpass : checkRequirements_log w = (Returns None, w)).
    { unfold checkRequirements_log, try_catch, mbind, M_bind, await.
      destruct (git_log 1 (repo w)) as [commits|error]; [done|].
      by rewrite decide_False by (by apply Hlog). }
    unfold checkRequirements. erewrite bind_Returns by exact Hpass.
    unfold mbind, M_bind, await. rewrite Huser, Hemail, Hurl.
    split; intros Hall; case_decide; try done; tauto.
Qed.
End requirements.

Lemma checkRequirements_answers_witness :
  checkRequirements (Vault.world Vault.missing)
  = (Returns missing_repo, Vault.world Vault.missing)
  ∧ checkRequirements (Vault.world Origin.ahead)
    = (Returns valid, Vault.world Origin.ahead)
  ∧ checkRequirements (Vault.world Vault.fresh)
    = (Returns wrong_settings, Vault.world Vault.fresh).
Proof.
  split_and!.
  - destruct (checkRequirements_answers (Vault.world Vault.missing)) as [Hmissing _].
    apply (Hmissing (Vault.NotFoundError "HEAD")); reflexivity.
  - destruct (checkRequirements_answers (Vault.world Origin.ahead)) as [_ Hconfig].
    edestruct (Hconfig (Some "vinzent") (Some "vinzent@example.org")
                 (Some "https://example.org/vault.git")) as [Hvalid _];
      [intros error [=]|vm_compute; reflexivity..|].
    apply Hvalid. split_and!; eexists; (split; [reflexivity|discriminate]).
  - destruct (checkRequirements_answers (Vault.world Vault.fresh)) as [_ Hconfig].
    edestruct (Hconfig None None None) as [_ Hwrong];
      [|vm_compute; reflexivity..|].
    + intros error [= <-] [_ [=]].
    + apply Hwrong. intros [(s & [=] & _) _].
Defined.

(** ** [pull], [push] and [canPush] *)

Section remote_properties.
Context {Repo : Type} `{!Git Repo, !GitManager Repo, !GitRemote Repo, !Obsidian Repo}.

Lemma await_update_Returns {A : Type} (call : Repo → Outcome A * Repo)
    (w : World Repo) (a : A) (r : Repo) :
  call (repo w) = (Returns a, r) →
  await_update call w = (Returns a, with_repo r w).
Proof. intros Hcall. unfold await_update. by rewrite Hcall. Qed.

(** [pull] up to the count, when the library succeeds. *)
Lemma pull_pulled (w : World Repo) (commitBefore commitAfter : option ReadCommitResult)
    (pulled : Repo) :
  (getCurrentCommit (after_setState PluginState.pull w)).1 = Returns commitBefore →
  git_pull remote_args (repo w) = (Returns (), pulled) →
  (getCurrentCommit
     (after_lastUpdate (with_repo pulled (after_setState PluginState.pull w)))).1
  = Returns commitAfter →
  pull w
  = try_catch (changed_between commitBefore commitAfter)
      (λ error, displayError error;; throw error)
      (after_lastUpdate (with_repo pulled (after_setState PluginState.pull w))).
Proof.
  intros Hbefore Hpull Hafter.
  assert (Hbefore' : getCurrentCommit (after_setState PluginState.pull w)
                     = (Returns commitBefore, after_setState PluginState.pull w)).
  { pose proof (getCurrentCommit_world (after_setState PluginState.pull w)) as Hw.
    destruct (getCurrentCommit (after_setState PluginState.pull w)) as [r w1].
    simpl in *. subst r. by subst w1. }
  set (w2 := after_lastUpdate (with_repo pulled (after_setState PluginState.pull w))) in *.
  assert (Hafter' : getCurrentCommit w2 = (Returns commitAfter, w2)).
  { pose proof (getCurrentCommit_world w2) as Hw.
    destruct (getCurrentCommit w2) as [r w3]. simpl in *. subst r. by subst w3. }
  unfold pull. erewrite bind_Returns by reflexivity. unfold try_catch.
  erewrite bind_Returns by exact Hbefore'.
  erewrite bind_Returns by (apply await_update_Returns; exact Hpull).
  erewrite bind_Returns by reflexivity.
  erewrite bind_Returns by exact Hafter'. reflexivity.
Qed.

(** X14: on a branch without a commit [pull] cannot succeed.  When the
    library has pulled, reading [oid] of the missing commit throws: [pull]
    fails with a [TypeError], which it displays, although the repository is
    the pulled one and [lastUpdate] is set. *)
Theorem pull_without_commit (w : World Repo) (commitAfter : option ReadCommitResult)
    (pulled : Repo) :
  (getCurrentCommit (after_setState PluginState.pull w)).1 = Returns None →
  git_pull remote_args (repo w) = (Returns (), pulled) →
  (getCurrentCommit
     (after_lastUpdate (with_repo pulled (after_setState PluginState.pull w)))).1
  = Returns commitAfter →
  ∃ w' : World Repo,
    pull w = (Throws TypeError, w')
    ∧ repo w' = pulled
    ∧ lastUpdate (plugin w') = clock w
    ∧ last (displayed (plugin w')) = Some TypeError.
Proof.
  intros Hbefore Hpull Hafter.
  rewrite (pull_pulled w None commitAfter pulled Hbefore Hpull Hafter).
  eexists. split; [reflexivity|]. simpl. split_and!; [done|done|apply last_snoc].
Qed.

(** X15: with a commit before and a commit after, [pull] returns the count
    [getChangedFiles] gives for the two; in particular it returns 0 when
    the commit after names the tree the commit before names, that is when
    nothing new was pulled. *)
Theorem pull_result (w : World Repo) (commitBefore commitAfter : ReadCommitResult)
    (pulled : Repo) :
  (getCurrentCommit (after_setState PluginState.pull w)).1 = Returns (Some commitBefore) →
  git_pull remote_args (repo w) = (Returns (), pulled) →
  (getCurrentCommit
     (after_lastUpdate (with_repo pulled (after_setState PluginState.pull w)))).1
  = Returns (Some commitAfter) →
  (∀ (count : nat) (w0 : World Repo),
     repo w0 = pulled →
     (getChangedFiles (oid commitBefore) (oid commitAfter) w0).1 = Returns count →
     (pull w).1 = Returns count ∧ repo (pull w).2 = pulled)
  ∧ (∀ X : TreeNode,
       git_TREE (oid commitBefore) pulled = Returns X →
       git_TREE (oid commitAfter) pulled = Returns X →
       (pull w).1 = Returns 0).
Proof.
  intros Hbefore Hpull Hafter.
  rewrite (pull_pulled w _ _ pulled Hbefore Hpull Hafter).
  set (w2 := after_lastUpdate (with_repo pulled (after_setState PluginState.pull w))).
  assert (Hcount : ∀ count w0, repo w0 = pulled →
    (getChangedFiles (oid commitBefore) (oid commitAfter) w0).1 = Returns count →
    try_catch (changed_between (Some commitBefore) (Some commitAfter))
      (λ error, displayError error;; throw error) w2 = (Returns count, w2)).
  { intros count w0 Hrepo Hrun. unfold try_catch, changed_between.
    pose proof (getChangedFiles_world w2 (oid commitBefore) (oid commitAfter)) as Hw.
    rewrite (getChangedFiles_repo w0 w2) in Hrun by done.
    destruct (getChangedFiles (oid commitBefore) (oid commitAfter) w2) as [r w3].
    simpl in *. by subst r w3. }
  split.
  - intros count w0 Hrepo Hrun. by rewrite (Hcount count w0 Hrepo Hrun).
  - intros X H1 H2. rewrite (Hcount 0 w2); [done|done|].
    unfold getChangedFiles.
    erewrite bind_Returns; [|apply (diff_returns w2 _ _ X X H1 H2)].
    rewrite walk_diff_same. cbn [fst snd mret M_ret]. f_equal.
    induction (filter (λ q, q ≠ ".") (leaves "." X)) as [|q qs IH]; [done|].
    cbn [fmap list_fmap]. rewrite filter_cons_False; [exact IH|]. simpl. tauto.
Qed.

(** [branchInfo] looks at the repository only. *)
Lemma branchInfo_repo (w w' : World Repo) (b : bool) :
  repo w = repo w' → (branchInfo b w).1 = (branchInfo b w').1.
Proof.
  intros Hrepo.
  unfold branchInfo, try_catch, mbind, M_bind, fmap, M_fmap, mbind, M_bind, await,
    displayError, throw.
  simpl. rewrite Hrepo.
  destruct (git_currentBranch (repo w')) as [branch|error]; [|done]. simpl.
  rewrite ?Hrepo.
  destruct (git_listBranches None (repo w')) as [local|error]; [|done]. simpl.
  rewrite ?Hrepo.
  destruct (git_getConfig _ (repo w')) as [remote|error]; [|done]. simpl.
  rewrite ?Hrepo.
  destruct (git_getConfig _ (repo w')) as [merge|error]; [|done]. simpl.
  destruct b; [|done]. simpl. rewrite ?Hrepo.
  by destruct (git_listBranches (Some _) (repo w')) as [listed|error].
Qed.

Lemma branchInfo_setState (w : World Repo) (s : PluginState.t) (b : bool) :
  branchInfo b (after_setState s w)
  = ((branchInfo b w).1, after_setState s (branchInfo b w).2).
Proof.
  pose proof (branchInfo_world (after_setState s w) b) as Hw1.
  pose proof (branchInfo_world w b) as Hw.
  pose proof (branchInfo_repo (after_setState s w) w b eq_refl) as Hr.
  destruct (branchInfo b (after_setState s w)) as [r1 w1].
  destruct (branchInfo b w) as [r w2]. simpl in *. subst r1 w1 w2.
  by destruct r.
Qed.

(** X16: [push] counts before it pushes.  The count it returns is the one
    [getChangedFiles] gives for the branch and its [tracking] reference in
    the repository as it was; [canPush], asked in the same world, says
    whether that count is not 0.  When the count cannot be taken, [git.push]
    is not called: the repository is left as it was. *)
Theorem push_counts_first (w : World Repo) (info : BranchInfo) :
  (branchInfo false w).1 = Returns info →
  (∀ (count : nat) (pushed : Repo),
     (getChangedFiles (current info) (tracking info) w).1 = Returns count →
     git_push remote_args (repo w) = (Returns (), pushed) →
     (push w).1 = Returns count
     ∧ repo (push w).2 = pushed
     ∧ canPush w = (Returns (bool_decide (count ≠ 0)), w))
  ∧ (∀ error : Exception,
       (getChangedFiles (current info) (tracking info) w).1 = Throws error →
       (push w).1 = Throws error ∧ repo (push w).2 = repo w).
Proof.
  intros Hinfo.
  assert (Hinfo' : branchInfo false w = (Returns info, w)).
  { pose proof (branchInfo_world w false) as Hw.
    destruct (branchInfo false w) as [r w1]. simpl in *. subst r. by subst w1. }
  set (w1 := after_setState PluginState.push w).
  assert (Hinfo1 : branchInfo false w1 = (Returns info, w1)).
  { unfold w1. by rewrite branchInfo_setState, Hinfo'. }
  split.
  - intros count pushed Hcount Hpush.
    assert (Hcount0 : getChangedFiles (current info) (tracking info) w
                      = (Returns count, w)).
    { pose proof (getChangedFiles_world w (current info) (tracking info)) as Hw.
      destruct (getChangedFiles (current info) (tracking info) w) as [r w2].
      simpl in *. by subst r w2. }
    assert (Hcount1 : getChangedFiles (current info) (tracking info) w1
                      = (Returns count, w1)).
    { pose proof (getChangedFiles_world w1 (current info) (tracking info)) as Hw.
      pose proof (getChangedFiles_repo w1 w (current info) (tracking info) eq_refl) as Hr.
      destruct (getChangedFiles (current info) (tracking info) w1) as [r w2].
      simpl in *. subst w2. by rewrite Hr, Hcount. }
    assert (Hrun : push w = (Returns count, after_lastUpdate (with_repo pushed w1))).
    { unfold push. erewrite bind_Returns by reflexivity. unfold try_catch.
      fold w1. erewrite bind_Returns by exact Hinfo1.
      erewrite bind_Returns by exact Hcount1.
      erewrite bind_Returns by (apply await_update_Returns; exact Hpush).
      erewrite bind_Returns by reflexivity. reflexivity. }
    rewrite Hrun. split_and!; [done|done|].
    unfold canPush. erewrite bind_Returns by exact Hinfo'.
    erewrite bind_Returns by exact Hcount0. reflexivity.
  - intros error Hcount.
    assert (Hcount1 : getChangedFiles (current info) (tracking info) w1
                      = (Throws error, w1)).
    { pose proof (getChangedFiles_world w1 (current info) (tracking info)) as Hw.
      pose proof (getChangedFiles_repo w1 w (current info) (tracking info) eq_refl) as Hr.
      destruct (getChangedFiles (current info) (tracking info) w1) as [r w2].
      simpl in *. subst w2. by rewrite Hr, Hcount. }
    assert (Hrun : push w = (Throws error, after_displayError error w1)).
    { unfold push. erewrite bind_Returns by reflexivity. unfold try_catch.
      fold w1. erewrite bind_Returns by exact Hinfo1.
      unfold mbind at 1, M_bind at 1. rewrite Hcount1. reflexivity. }
    by rewrite Hrun.
Qed.
End remote_properties.

Lemma pull_without_commit_witness :
  ∃ w' : World Vault.t,
    pull (Vault.world Vault.fresh) = (Throws TypeError, w')
    ∧ Vault.tip (repo w') = Some {| oid := "c1"; payload := "second" |}
    ∧ last (displayed (plugin w')) = Some TypeError.
Proof.
  destruct (pull_without_commit (Vault.world Vault.fresh)
              (Some {| oid := "c1"; payload := "second" |})
              (Origin.with_tip {| oid := "c1"; payload := "second" |} Vault.fresh))
    as (w' & Hrun & Hrepo & _ & Hlast); try (vm_compute; reflexivity).
  exists w'. split_and!; [exact Hrun|by rewrite Hrepo|exact Hlast].
Defined.

Lemma pull_result_witness :
  (pull (Vault.world Vault.tracked)).1 = Returns 2
  ∧ (pull (Vault.world Origin.ahead)).1 = Returns 0.
Proof.
  split.
  - edestruct (pull_result (Vault.world Vault.tracked)
                 {| oid := "c0"; payload := "first" |}
                 {| oid := "c1"; payload := "second" |}
                 (Origin.with_tip {| oid := "c1"; payload := "second" |} Vault.tracked))
      as [Hcount _]; [vm_compute; reflexivity..|].
    apply (Hcount 2
             (Vault.world (Origin.with_tip {| oid := "c1"; payload := "second" |}
                             Vault.tracked)));
      vm_compute; reflexivity.
  - edestruct (pull_result (Vault.world Origin.ahead)
                 {| oid := "c1"; payload := "second" |}
                 {| oid := "c1"; payload := "second" |}
                 (Origin.with_tip {| oid := "c1"; payload := "second" |} Origin.ahead))
      as [_ Hsame]; [vm_compute; reflexivity..|].
    apply (Hsame Vault.treeB); vm_compute; reflexivity.
Defined.

Lemma push_counts_first_witness :
  (push (Vault.world Origin.ahead)).1 = Returns 2
  ∧ canPush (Vault.world Origin.ahead) = (Returns true, Vault.world Origin.ahead)
  ∧ (push (Vault.world Vault.tracked)).1 = Throws (Vault.NotFoundError "main")
  ∧ repo (push (Vault.world Vault.tracked)).2 = Vault.tracked.
Proof.
  assert (Hahead : (branchInfo false (Vault.world Origin.ahead)).1
                   = Returns {| current := "main"; tracking := "origin/main";
                                branches := ["main"]; remoteBranches := None |})
    by (vm_compute; reflexivity).
  assert (Htracked : (branchInfo false (Vault.world Vault.tracked)).1
                     = Returns {| current := "main"; tracking := "origin/main";
                                  branches := ["main"]; remoteBranches := None |})
    by (vm_compute; reflexivity).
  destruct (push_counts_first (Vault.world Origin.ahead) _ Hahead) as [Hcount _].
  destruct (push_counts_first (Vault.world Vault.tracked) _ Htracked) as [_ Hfails].
  destruct (Hcount 2 Origin.ahead) as (Hpush & _ & Hcan);
    try (vm_compute; reflexivity).
  destruct (Hfails (Vault.NotFoundError "main")) as [Hthrows Hrepo];
    try (vm_compute; reflexivity).
  split_and!; [exact Hpush|exact Hcan|exact Hthrows|exact Hrepo].
Defined.

(** ** [lastUpdate] and [fetch] *)

Section remaining.
Context {Repo : Type} `{!Git Repo, !GitManager Repo, !GitRemote Repo, !Obsidian Repo}.

(** X17: whenever [commitAll], [pull] or [push] returns, [lastUpdate] holds
    the time of the call: the clock of the world the method leaves. *)
Theorem lastUpdate_after_success (w w' : World Repo) :
  ((∃ message result, commitAll message w = (Returns result, w')) ∨
   (∃ count, pull w = (Returns count, w')) ∨
   (∃ count, push w = (Returns count, w'))) →
  lastUpdate (plugin w') = clock w'.
Proof.
  intros [(message & result & Hrun)|[(count & Hrun)|(count & Hrun)]].
  - apply rethrow_Returns in Hrun.
    apply bind_inv_Returns in Hrun as (commitBefore & w1 & _ & Hrun).
    apply bind_inv_Returns in Hrun as (rows & w2 & _ & Hrun).
    apply bind_inv_Returns in Hrun as ([] & w3 & _ & Hrun).
    apply bind_inv_Returns in Hrun as (formatMessage & w4 & _ & Hrun).
    apply bind_inv_Returns in Hrun as (made & w5 & _ & Hrun).
    apply bind_inv_Returns in Hrun as (commitAfter & w6 & _ & Hrun).
    apply bind_inv_Returns in Hrun as ([] & w7 & [= <-] & Hrun).
    destruct commitBefore as [before|]; [|by injection Hrun as _ <-].
    destruct commitAfter as [after|]; [|discriminate].
    apply bind_inv_Returns in Hrun as (n & w8 & Hcount & [= _ <-]).
    pose proof (getChangedFiles_world (after_lastUpdate w6) (oid before) (oid after)) as Hw.
    rewrite Hcount in Hw. simpl in Hw. by subst w8.
  - apply rethrow_Returns in Hrun.
    apply bind_inv_Returns in Hrun as (commitBefore & w1 & _ & Hrun).
    apply bind_inv_Returns in Hrun as ([] & w2 & _ & Hrun).
    apply bind_inv_Returns in Hrun as ([] & w3 & [= <-] & Hrun).
    apply bind_inv_Returns in Hrun as (commitAfter & w4 & Hafter & Hrun).
    apply getCurrentCommit_Returns_world in Hafter as ->.
    destruct commitBefore as [before|]; [|discriminate].
    destruct commitAfter as [after|]; [|discriminate].
    pose proof (getChangedFiles_world (after_lastUpdate w2) (oid before) (oid after)) as Hw.
    unfold changed_between in Hrun. rewrite Hrun in Hw. simpl in Hw. by subst w'.
  - apply rethrow_Returns in Hrun.
    apply bind_inv_Returns in Hrun as (info & w1 & _ & Hrun).
    apply bind_inv_Returns in Hrun as (n & w2 & _ & Hrun).
    apply bind_inv_Returns in Hrun as ([] & w3 & _ & Hrun).
    apply bind_inv_Returns in Hrun as ([] & w4 & [= <-] & Hrun).
    by injection Hrun as _ <-.
Qed.

(** X19: without a proxy URL in the settings [fetch] does not call the
    library: it shows the notice, returns as if it had fetched and leaves
    the repository as it was. *)
Theorem fetch_without_proxy (w : World Repo) :
  ¬ truthy settings_proxyURL →
  fetch w = (Returns (), Notice "Please specify a proxy URL" w)
  ∧ repo (fetch w).2 = repo w.
Proof.
  intros Hproxy. unfold fetch. rewrite decide_True by done.
  split; [done|]. apply Notice_repo.
Qed.
End remaining.

Lemma lastUpdate_after_success_witness :
  ∃ w' : World Vault.t,
    push (Vault.world Origin.ahead) = (Returns 2, w')
    ∧ lastUpdate (plugin w') = 1700000000000%Z.
Proof.
  eexists. split; [vm_compute; reflexivity|].
  eapply (lastUpdate_after_success (Vault.world Origin.ahead)).
  right. right. exists 2. vm_compute. reflexivity.
Defined.

Lemma fetch_without_proxy_witness :
  (fetch (Obsidian0 := Origin.offline) (Vault.world Origin.ahead)).1 = Returns ()
  ∧ repo (fetch (Obsidian0 := Origin.offline) (Vault.world Origin.ahead)).2 = Origin.ahead.
Proof.
  destruct (fetch_without_proxy (Obsidian0 := Origin.offline) (Vault.world Origin.ahead))
    as [Hrun Hrepo].
  - intros (s & [= <-] & Hs). done.
  - split; [by rewrite Hrun|exact Hrepo].
Defined.

(** ** The constructor *)

Lemma prefix_empty (s : string) : String.prefix "" s = true.
Proof. by destruct s. Qed.

Lemma substring_app (p r : string) :
  String.substring 0 (String.length p) (p +:+ r) = p.
Proof.
  induction p as [|c p IH]; [by destruct r|].
  change (String c p +:+ r) with (String c (p +:+ r)). simpl. by rewrite IH.
Qed.

Lemma index_question_mark_cons (c : ascii) (s : string) :
  String.index 0 "?" (String c s)
  = if ascii_dec "?" c then Some 0
    else match String.index 0 "?" s with
         | Some n => Some (S n)
         | None => None
         end.
Proof.
  change (String.index 0 "?" (String c s))
    with (if String.prefix "?" (String c s) then Some 0
          else match String.index 0 "?" s with
               | Some n => Some (S n)
               | None => None
               end).
  change (String.prefix "?" (String c s))
    with (if ascii_dec "?" c then String.prefix "" s else false).
  destruct (ascii_dec "?" c); [by rewrite prefix_empty|done].
Qed.

(** The first question mark of a text that has none before it. *)
Lemma index_question_mark (p q : string) :
  String.index 0 "?" p = None →
  String.index 0 "?" (p +:+ "?" +:+ q) = Some (String.length p).
Proof.
  induction p as [|c p IH].
  - intros _. change ("" +:+ "?" +:+ q) with (String "?" q).
    rewrite index_question_mark_cons. by destruct (ascii_dec "?" "?").
  - change (String c p +:+ "?" +:+ q) with (String c (p +:+ "?" +:+ q)).
    rewrite !index_question_mark_cons.
    destruct (ascii_dec "?" c) as [Hc|Hc]; [discriminate|].
    destruct (String.index 0 "?" p) as [i|]; [discriminate|].
    intros _. by rewrite IH.
Qed.

Lemma replace_first_resource (rest : string) :
  replace_first "app://local/" "" ("app://local/" +:+ rest) = rest.
Proof.
  unfold replace_first.
  assert (Hfirst : String.index 0 "app://local/" ("app://local/" +:+ rest) = Some 0).
  { simpl. by rewrite prefix_empty. }
  rewrite Hfirst.
  assert (Hrest : String.substring (0 + String.length "app://local/")
                    (String.length ("app://local/" +:+ rest)
                     - (0 + String.length "app://local/"))
                    ("app://local/" +:+ rest) = rest).
  { simpl. change ("" +:+ rest) with rest. rewrite Nat.sub_0_r. apply substring_all. }
  rewrite Hrest. by destruct rest.
Qed.

(** X20: for a resource path that is [app://local/] followed by an encoded
    path, the constructor keeps of the decoded path what precedes its first
    question mark: the cache-busting query the host appends is cut off. *)
Theorem constructor_dir_cuts_query (decodeURIComponent : string → Outcome string)
    (encoded p q : string) :
  decodeURIComponent encoded = Returns (p +:+ "?" +:+ q) →
  String.index 0 "?" p = None →
  constructor_dir decodeURIComponent ("app://local/" +:+ encoded) = Returns p.
Proof.
  intros Hdecode Hp. unfold constructor_dir.
  rewrite replace_first_resource, Hdecode. simpl. f_equal.
  unfold before_first. rewrite (index_question_mark p q Hp). apply substring_app.
Qed.

(** X21: when the decoded resource path holds no question mark, the
    constructor leaves the empty path in [dir], not the path itself. *)
Theorem constructor_dir_without_query (decodeURIComponent : string → Outcome string)
    (resourcePath decoded : string) :
  decodeURIComponent (replace_first "app://local/" "" resourcePath) = Returns decoded →
  String.index 0 "?" decoded = None →
  constructor_dir decodeURIComponent resourcePath = Returns "".
Proof.
  intros Hdecode Hnone. unfold constructor_dir. rewrite Hdecode. simpl.
  unfold before_first. by rewrite Hnone.
Qed.

Lemma constructor_dir_cuts_query_witness :
  constructor_dir Returns "app://local/C:/Users/me/vault/?1634" = Returns "C:/Users/me/vault/".
Proof.
  apply (constructor_dir_cuts_query Returns "C:/Users/me/vault/?1634"
           "C:/Users/me/vault/" "1634").
  - reflexivity.
  - reflexivity.
Defined.

Lemma constructor_dir_without_query_witness :
  constructor_dir Returns "app://local/C:/Users/me/vault/" = Returns "".
Proof.
  apply (constructor_dir_without_query Returns "app://local/C:/Users/me/vault/"
           "C:/Users/me/vault/").
  - reflexivity.
  - reflexivity.
Defined.
